(** * Resumable microphone stream: replay, time correction and restart

    A shallow embedding of [prototype/speech/transcribe_streaming_infinite.py]:
    the chunk queue, [ResumableMicrophoneStream.generator],
    [listen_print_loop] and the loop of [main], followed by the properties
    of the bridging computation, of the restart bookkeeping and of the
    transcript entries.

    Numbers.  Python's [int] is [Z] and its [float] is a binary64 number,
    a [spec_float] of the Standard Library with precision 53 and maximal
    exponent 1024.  The float expressions of the program
    ([STREAMING_LIMIT / len(...)], the quotient and the product passed to
    [round], and [seconds * 1000 + nanos / 1000000]) are evaluated with the
    binary64 operations, each rounding to the nearest number, ties to even.
    A division by zero raises [ZeroDivisionError]; the conversion of an
    [int] that is too large, the quotient of two [int] that is too large
    and [round] or [int] of an infinity raise [OverflowError]; [round] or
    [int] of a NaN raises [ValueError].

    Threads.  While [main] waits in [listen_print_loop], the audio callback
    fills the queue and the speech client takes items from the generator.
    A request is run on a list of events, one per step of any of the three,
    in the order in which they happen; a pass of the generator between two
    [yield] is one step. *)

From Stdlib Require Import String Ascii ZArith QArith List Bool Lia Lqa.
From Stdlib Require Import DecimalString.
From Stdlib Require Init.Byte.
From Stdlib Require SpecFloat.
Import ListNotations.

Local Open Scope Z_scope.

(** ** Exceptions and results *)

Inductive exn : Type :=
| ZeroDivisionError
| OverflowError
| ValueError
| IndexError
| TypeError.

Inductive result (A : Type) : Type :=
| Ok (a : A)
| Raise (e : exn).

Arguments Ok {A} a.
Arguments Raise {A} e.

Definition bind {A B : Type} (m : result A) (k : A -> result B) : result B :=
  match m with
  | Ok a => k a
  | Raise e => Raise e
  end.

Notation "'let*' x ':=' m 'in' k" := (bind m (fun x => k))
  (at level 10, x pattern, m at level 100, k at level 200).

(** ** Python numbers *)

Module Py.

Import SpecFloat.

(** A [float]. *)
Definition float : Type := spec_float.

Definition prec : Z := 53.
Definition emax : Z := 1024.

(** The rational that a finite float stands for. *)
Definition exact (x : float) : option Q :=
  match x with
  | S754_zero _ => Some 0%Q
  | S754_finite sign m e =>
      let n := if sign then Z.neg m else Z.pos m in
      Some (if e <? 0 then (n # Z.to_pos (2 ^ (- e)))%Q
            else inject_Z (n * 2 ^ e))
  | _ => None
  end.

(** [x == 0] on a float: both zeros are equal to 0, a NaN is not. *)
Definition is_zero (x : float) : bool :=
  match x with
  | S754_zero _ => true
  | _ => false
  end.

(** A result that must fit: an infinity is an [OverflowError]. *)
Definition fitting (x : float) : result float :=
  match x with
  | S754_infinity _ => Raise OverflowError
  | _ => Ok x
  end.

(** [float(z)], the conversion applied to an [int] operand that meets a
    [float]. *)
Definition float_of_int (z : Z) : result float :=
  fitting (binary_normalize prec emax z 0 false).

(** An [int] as mantissa, with exponent 0. *)
Definition mantissa (z : Z) : float :=
  match z with
  | Z0 => S754_zero false
  | Z.pos m => S754_finite false m 0
  | Z.neg m => S754_finite true m 0
  end.

(** [a / b] on two [int]: the quotient of the two integers, rounded once. *)
Definition int_truediv (a b : Z) : result float :=
  if b =? 0 then Raise ZeroDivisionError
  else fitting (SFdiv prec emax (mantissa a) (mantissa b)).

(** [x / y] on two [float]. *)
Definition truediv (x y : float) : result float :=
  if is_zero y then Raise ZeroDivisionError else Ok (SFdiv prec emax x y).

(** [x * y] and [x + y] on two [float]. *)
Definition mul (x y : float) : float := SFmul prec emax x y.
Definition add (x y : float) : float := SFadd prec emax x y.

(** The nearest integer of a rational, ties to even. *)
Definition round_half_even (x : Q) : Z :=
  let n := Qnum x in
  let d := Z.pos (Qden x) in
  let f := n / d in
  match (2 * (n mod d)) ?= d with
  | Lt => f
  | Gt => f + 1
  | Eq => if Z.even f then f else f + 1
  end.

(** A rational cut towards zero. *)
Definition truncate (x : Q) : Z := Z.quot (Qnum x) (Z.pos (Qden x)).

Definition integer (f : Q -> Z) (x : float) : result Z :=
  match x with
  | S754_infinity _ => Raise OverflowError
  | S754_nan => Raise ValueError
  | _ =>
      match exact x with
      | Some q => Ok (f q)
      | None => Raise ValueError
      end
  end.

(** [round(x)] on a [float]: nearest integer, ties to even. *)
Definition round (x : float) : result Z := integer round_half_even x.

(** [int(x)] on a [float]: truncation towards zero. *)
Definition int (x : float) : result Z := integer truncate x.

(** [str(n)] for an [int]. *)
Definition str (n : Z) : string := NilZero.string_of_int (Z.to_int n).


(** [range(a, b)]. *)
Definition range (a b : Z) : list Z :=
  map (fun i => a + Z.of_nat i) (seq 0 (Z.to_nat (b - a))).

(** [l[i]], with Python's negative indices. *)
Definition getitem {A : Type} (l : list A) (i : Z) : result A :=
  let n := Z.of_nat (length l) in
  let j := if i <? 0 then i + n else i in
  if j <? 0 then Raise IndexError
  else match nth_error l (Z.to_nat j) with
       | Some x => Ok x
       | None => Raise IndexError
       end.

(** [for i in idx: data.append(l[i])]. *)
Fixpoint extend_from {A : Type} (l : list A) (idx : list Z) (data : list A)
  : result (list A) :=
  match idx with
  | [] => Ok data
  | i :: idx' =>
      let* x := getitem l i in
      extend_from l idx' (data ++ [x])
  end.

End Py.

(** ** Audio chunks and the stream object *)

Definition bytes : Type := list Byte.byte.

(** What travels through [_buff]: a chunk, or [None], the close signal. *)
Definition item : Type := option bytes.

Definition STREAMING_LIMIT : Z := 10000.

Record stream : Type := mkStream {
  _buff : list item;
  closed : bool;
  start_time : Z;
  restart_counter : Z;
  audio_input : list item;
  last_audio_input : list item;
  result_end_time : Z;
  is_final_end_time : Z;
  final_request_end_time : Z;
  bridging_offset : Z;
  last_transcript_was_final : bool;
  new_stream : bool
}.

Definition set_buff (v : list item) (s : stream) : stream :=
  mkStream v (closed s) (start_time s) (restart_counter s) (audio_input s)
    (last_audio_input s) (result_end_time s) (is_final_end_time s)
    (final_request_end_time s) (bridging_offset s)
    (last_transcript_was_final s) (new_stream s).

Definition set_closed (v : bool) (s : stream) : stream :=
  mkStream (_buff s) v (start_time s) (restart_counter s) (audio_input s)
    (last_audio_input s) (result_end_time s) (is_final_end_time s)
    (final_request_end_time s) (bridging_offset s)
    (last_transcript_was_final s) (new_stream s).

Definition set_start_time (v : Z) (s : stream) : stream :=
  mkStream (_buff s) (closed s) v (restart_counter s) (audio_input s)
    (last_audio_input s) (result_end_time s) (is_final_end_time s)
    (final_request_end_time s) (bridging_offset s)
    (last_transcript_was_final s) (new_stream s).

Definition set_restart_counter (v : Z) (s : stream) : stream :=
  mkStream (_buff s) (closed s) (start_time s) v (audio_input s)
    (last_audio_input s) (result_end_time s) (is_final_end_time s)
    (final_request_end_time s) (bridging_offset s)
    (last_transcript_was_final s) (new_stream s).

Definition set_audio_input (v : list item) (s : stream) : stream :=
  mkStream (_buff s) (closed s) (start_time s) (restart_counter s) v
    (last_audio_input s) (result_end_time s) (is_final_end_time s)
    (final_request_end_time s) (bridging_offset s)
    (last_transcript_was_final s) (new_stream s).

Definition set_last_audio_input (v : list item) (s : stream) : stream :=
  mkStream (_buff s) (closed s) (start_time s) (restart_counter s)
    (audio_input s) v (result_end_time s) (is_final_end_time s)
    (final_request_end_time s) (bridging_offset s)
    (last_transcript_was_final s) (new_stream s).

Definition set_result_end_time (v : Z) (s : stream) : stream :=
  mkStream (_buff s) (closed s) (start_time s) (restart_counter s)
    (audio_input s) (last_audio_input s) v (is_final_end_time s)
    (final_request_end_time s) (bridging_offset s)
    (last_transcript_was_final s) (new_stream s).

Definition set_is_final_end_time (v : Z) (s : stream) : stream :=
  mkStream (_buff s) (closed s) (start_time s) (restart_counter s)
    (audio_input s) (last_audio_input s) (result_end_time s) v
    (final_request_end_time s) (bridging_offset s)
    (last_transcript_was_final s) (new_stream s).

Definition set_final_request_end_time (v : Z) (s : stream) : stream :=
  mkStream (_buff s) (closed s) (start_time s) (restart_counter s)
    (audio_input s) (last_audio_input s) (result_end_time s)
    (is_final_end_time s) v (bridging_offset s)
    (last_transcript_was_final s) (new_stream s).

Definition set_bridging_offset (v : Z) (s : stream) : stream :=
  mkStream (_buff s) (closed s) (start_time s) (restart_counter s)
    (audio_input s) (last_audio_input s) (result_end_time s)
    (is_final_end_time s) (final_request_end_time s) v
    (last_transcript_was_final s) (new_stream s).

Definition set_last_transcript_was_final (v : bool) (s : stream) : stream :=
  mkStream (_buff s) (closed s) (start_time s) (restart_counter s)
    (audio_input s) (last_audio_input s) (result_end_time s)
    (is_final_end_time s) (final_request_end_time s) (bridging_offset s)
    v (new_stream s).

Definition set_new_stream (v : bool) (s : stream) : stream :=
  mkStream (_buff s) (closed s) (start_time s) (restart_counter s)
    (audio_input s) (last_audio_input s) (result_end_time s)
    (is_final_end_time s) (final_request_end_time s) (bridging_offset s)
    (last_transcript_was_final s) v.

(** [ResumableMicrophoneStream.__init__], called at wall-clock time [now]. *)
Definition __init__ (now : Z) : stream :=
  mkStream [] true now 0 [] [] 0 0 0 0 false true.

(** [__enter__]. *)
Definition __enter__ (s : stream) : stream := set_closed false s.

(** ** The chunk queue ([queue.Queue]) *)

Definition put (x : item) (q : list item) : list item := q ++ [x].

(** [get()]: the oldest item; on an empty queue the caller blocks, which is
    [None] here. *)
Definition get (q : list item) : option (item * list item) :=
  match q with
  | [] => None
  | x :: q' => Some (x, q')
  end.

(** [_fill_buffer], the capture callback. *)
Definition _fill_buffer (in_data : bytes) (s : stream) : stream :=
  set_buff (put (Some in_data) (_buff s)) s.

(** ** [generator]: the replay of unfinalized audio (lines 103-135) *)

(** The two guards on [bridging_offset] (lines 115-121). *)
Definition guard_offset (s : stream) : stream :=
  let s1 := if bridging_offset s <? 0 then set_bridging_offset 0 s else s in
  if bridging_offset s1 >? final_request_end_time s1
  then set_bridging_offset (final_request_end_time s1) s1
  else s1.

(** The body of [if self.new_stream and self.last_audio_input:], with the
    session limit as an argument.  It returns the chunks put in [data], or
    the exception raised, and the stream as it is at that point. *)
Definition replay_with (limit : Z) (s : stream)
  : result (list item) * stream :=
  if new_stream s && negb (Nat.eqb (length (last_audio_input s)) 0) then
    let n := length (last_audio_input s) in
    match Py.int_truediv limit (Z.of_nat n) with
    | Raise e => (Raise e, s)
    | Ok chunk_time =>
        if negb (Py.is_zero chunk_time) then
          let s2 := guard_offset s in
          match
            (let* x := Py.float_of_int
                         (final_request_end_time s2 - bridging_offset s2) in
             let* q := Py.truediv x chunk_time in
             Py.round q)
          with
          | Raise e => (Raise e, s2)
          | Ok chunks_from_ms =>
              match
                (let* y := Py.float_of_int (Z.of_nat n - chunks_from_ms) in
                 Py.round (Py.mul y chunk_time))
              with
              | Raise e => (Raise e, s2)
              | Ok offset =>
                  let s3 := set_bridging_offset offset s2 in
                  match Py.extend_from (last_audio_input s3)
                          (Py.range chunks_from_ms (Z.of_nat n)) [] with
                  | Raise e => (Raise e, s3)
                  | Ok data => (Ok data, set_new_stream false s3)
                  end
              end
          end
        else (Ok [], set_new_stream false s)
    end
  else (Ok [], s).

Definition replay (s : stream) : result (list item) * stream :=
  replay_with STREAMING_LIMIT s.


(** The values of the replay by themselves: the chunk duration, the guarded
    offset, the index of the first chunk sent again and the offset stored
    for the next request. *)
Definition chunk_time_of (limit : Z) (n : nat) : result Py.float :=
  Py.int_truediv limit (Z.of_nat n).

Definition clamp_offset (offset final : Z) : Z :=
  let b := if offset <? 0 then 0 else offset in
  if b >? final then final else b.

Definition chunks_from_ms_of (limit : Z) (n : nat) (final offset : Z)
  : result Z :=
  let* chunk_time := chunk_time_of limit n in
  let* x := Py.float_of_int (final - clamp_offset offset final) in
  let* q := Py.truediv x chunk_time in
  Py.round q.

Definition next_offset_of (limit : Z) (n : nat) (final offset : Z)
  : result Z :=
  let* chunk_time := chunk_time_of limit n in
  let* chunks_from_ms := chunks_from_ms_of limit n final offset in
  let* y := Py.float_of_int (Z.of_nat n - chunks_from_ms) in
  Py.round (Py.mul y chunk_time).

(** ** [generator]: reading the queue (lines 137-161) *)

(** [b''.join(data)]; an item that is not a chunk is a [TypeError]. *)
Fixpoint join (data : list item) : result bytes :=
  match data with
  | [] => Ok []
  | Some c :: data' => let* r := join data' in Ok (c ++ r)
  | None :: _ => Raise TypeError
  end.

(** How one pass of [while not self.closed:] leaves the generator. *)
Inductive step : Type :=
| Yield (content : bytes) (s : stream)
| Return (s : stream)
| Blocked (data : list item) (s : stream)
| Failed (e : exn) (s : stream).

(** The inner [while True:] with [get(block=False)] on the queue [q]. *)
Fixpoint drain (q data : list item) (s : stream) : step :=
  match q with
  | [] =>
      match join data with
      | Ok content => Yield content (set_buff [] s)
      | Raise e => Failed e (set_buff [] s)
      end
  | None :: q' => Return (set_buff q' s)
  | Some c :: q' =>
      drain q' (data ++ [Some c])
        (set_audio_input (audio_input s ++ [Some c]) s)
  end.

(** From the blocking [self._buff.get()] to the [yield]. *)
Definition fetch (data : list item) (s : stream) : step :=
  match get (_buff s) with
  | None => Blocked data s
  | Some (chunk, q') =>
      let s1 := set_audio_input (audio_input s ++ [chunk]) (set_buff q' s) in
      match chunk with
      | None => Return s1
      | Some _ => drain q' (data ++ [chunk]) s1
      end
  end.

(** The body of [generator] from the test of [while not self.closed:] to
    the next [yield] or to the end: one pass of its loop. *)
Definition generator (s : stream) : step :=
  if closed s then Return s
  else match replay s with
       | (Ok data, s1) => fetch data s1
       | (Raise e, s1) => Failed e s1
       end.

(** The generator object between two calls of [next]: not started or
    suspended at its [yield], waiting in [get()] with [data] gathered so
    far, or finished. *)
Inductive generator_object : Type :=
| Suspended
| Waiting (data : list item)
| Finished.

(** The stream, the generator of the running request and the audio
    contents it has yielded so far. *)
Record session : Type := mkSession {
  mic : stream;
  audio_generator : generator_object;
  requests : list bytes
}.

Definition with_mic (f : stream -> stream) (w : session) : session :=
  mkSession (f (mic w)) (audio_generator w) (requests w).

Definition settle (st : step) (w : session) : session :=
  match st with
  | Yield content s => mkSession s Suspended (requests w ++ [content])
  | Return s => mkSession s Finished (requests w)
  | Blocked data s => mkSession s (Waiting data) (requests w)
  | Failed _ s => mkSession s Finished (requests w)
  end.

(** The speech client asks the generator for its next item. *)
Definition next (w : session) : session :=
  match audio_generator w with
  | Suspended => settle (generator (mic w)) w
  | Waiting data => settle (fetch data (mic w)) w
  | Finished => w
  end.

(** ** Responses of the recognition service *)

Module Speech.

Record duration : Type := mkDuration { seconds : Z; nanos : Z }.

Record alternative : Type := mkAlternative { transcript : string }.

Record result : Type := mkResult {
  alternatives : list alternative;
  is_final : bool;
  result_end_time : duration
}.

Record response : Type := mkResponse { results : list result }.

End Speech.

(** What [translate_client.translate] returns. *)
Record translation : Type := mkTranslation {
  input : string;
  translatedText : string
}.

(** An exception that leaves [listen_print_loop]: one of the two that
    [main] handles, or another one. *)
Inductive raised : Type :=
| DeadlineExceeded
| KeyboardInterrupt
| Other (e : exn).

(** What happens while [main] runs one request.  [Capture] and [Request]
    belong to the audio callback and to the client's sending thread;
    [Response now now' r] is a response received when [get_current_time()]
    reads [now], and [now'] when it is read again; [Raises x] is an
    exception raised by the iteration over [responses]; the end of the list
    is the end of [responses]. *)
Inductive event : Type :=
| Capture (in_data : bytes)
| Request
| Response (now now' : Z) (r : Speech.response)
| Raises (x : raised).

Definition nl : string := String (ascii_of_nat 10) EmptyString.
Definition esc : string := String (ascii_of_nat 27) EmptyString.
Definition RED : string := esc ++ "[0;31m".
Definition GREEN : string := esc ++ "[0;32m".
Definition YELLOW : string := esc ++ "[0;33m".

(** ** [listen_print_loop] *)

(** The two local lists of the loop. *)
Record transcripts : Type := mkTranscripts {
  all_transcripts : list string;
  all_final_transcripts : list string
}.

(** How the call ends: it returns, or an exception leaves it. *)
Inductive outcome : Type :=
| Returns
| Raised (x : raised).

(** [int((result_seconds * 1000) + (result_nanos / 1000000))] for a result:
    its end time in ms (lines 212-223). *)
Definition end_time_ms (r : Speech.result) : result Z :=
  let t := Speech.result_end_time r in
  let result_seconds :=
    if Speech.seconds t =? 0 then 0 else Speech.seconds t in
  let result_nanos :=
    if Speech.nanos t =? 0 then 0 else Speech.nanos t in
  let* ms := Py.int_truediv result_nanos 1000000 in
  let* whole := Py.float_of_int (result_seconds * 1000) in
  Py.int (Py.add whole ms).

Definition corrected_time (s : stream) : Z :=
  result_end_time s - bridging_offset s
  + STREAMING_LIMIT * restart_counter s.

(** The line kept for a result. *)
Definition entry (time : Z) (translated : translation) : string :=
  Py.str time ++ ": " ++ input translated ++ nl
  ++ translatedText translated ++ nl.

Section Listen.

Variable translate_client : string -> translation.

(** The body of the [for] loop after the time test. *)
Definition handle (response : Speech.response) (acc : transcripts)
    (s : stream) : result (transcripts * stream) :=
  match Speech.results response with
  | [] => Ok (acc, s)
  | result :: _ =>
      match Speech.alternatives result with
      | [] => Ok (acc, s)
      | top :: _ =>
          let translated := translate_client (Speech.transcript top) in
          let* time := end_time_ms result in
          let s1 := set_result_end_time time s in
          let line := entry (corrected_time s1) translated in
          if Speech.is_final result then
            Ok (mkTranscripts (all_transcripts acc)
                  (all_final_transcripts acc ++ [line]),
                set_last_transcript_was_final true
                  (set_is_final_end_time (result_end_time s1) s1))
          else
            Ok (mkTranscripts (all_transcripts acc ++ [line])
                  (all_final_transcripts acc),
                set_last_transcript_was_final false s1)
      end
  end.

(** [for response in responses:], with what the other threads do in
    between. *)
Fixpoint listen (evs : list event) (acc : transcripts) (w : session)
  : outcome * transcripts * session :=
  match evs with
  | [] => (Returns, acc, w)
  | Capture in_data :: evs' =>
      listen evs' acc (with_mic (_fill_buffer in_data) w)
  | Request :: evs' => listen evs' acc (next w)
  | Raises x :: _ => (Raised x, acc, w)
  | Response now now' response :: evs' =>
      if now - start_time (mic w) >? STREAMING_LIMIT then
        (Returns, acc, with_mic (set_start_time now') w)
      else
        match handle response acc (mic w) with
        | Ok (acc', s') =>
            listen evs' acc' (mkSession s' (audio_generator w) (requests w))
        | Raise e => (Raised (Other e), acc, w)
        end
  end.

(** The two [sys.stdout.write] after the loop. *)
Definition report (acc : transcripts) : list string :=
  match all_final_transcripts acc with
  | _ :: _ => [GREEN; List.last (all_final_transcripts acc) ""%string]
  | [] =>
      match all_transcripts acc with
      | _ :: _ => [RED; List.last (all_transcripts acc) ""%string]
      | [] => []
      end
  end.

Definition no_transcripts : transcripts := mkTranscripts [] [].

(** The call; the last component is what it writes on [sys.stdout]. *)
Definition listen_print_loop (evs : list event) (w : session)
  : outcome * session * list string :=
  let '(o, acc, w') := listen evs no_transcripts w in
  match o with
  | Returns => (o, w', report acc)
  | Raised _ => (o, w', [])
  end.

(** ** The loop of [main] *)

(** [__exit__]: the stream is closed and the close signal queued. *)
Definition __exit__ (s : stream) : stream :=
  set_buff (put None (_buff s)) (set_closed true s).

(** How a pass of the loop is left: to its next pass, by [break], or by an
    exception that [main] does not handle and that leaves the loop and the
    [with] statement around it. *)
Inductive control : Type :=
| Continue
| Break
| Uncaught (e : exn).

Definition new_request_line (s : stream) : string :=
  nl ++ Py.str (STREAMING_LIMIT * restart_counter s) ++ ": NEW REQUEST" ++ nl.

Definition deadline_line : string := "Deadline_exceeded" ++ nl.

Definition exiting_line : string := "Exiting..." ++ nl.

(** "Reset stream for next iteration" (lines 329-339). *)
Definition reset (s : stream) : stream :=
  let s1 := if result_end_time s >? 0
            then set_final_request_end_time (is_final_end_time s) s
            else s in
  let s2 := set_result_end_time 0 s1 in
  let s3 := set_last_audio_input [] s2 in
  let s4 := set_last_audio_input (audio_input s3) s3 in
  let s5 := set_audio_input [] s4 in
  let s6 := set_restart_counter (restart_counter s5 + 1) s5 in
  set_new_stream true s6.

(** One pass of [while not stream.closed:] for the request whose events
    are [evs].  The recording written by [audio_saver] is not part of the
    state and is left out. *)
Definition main_iteration (evs : list event) (s : stream)
  : control * stream * list string :=
  let banner := [YELLOW; new_request_line s] in
  let s0 := set_audio_input [] s in
  let '(o, w, out) :=
    listen_print_loop evs (mkSession s0 Suspended []) in
  match o with
  | Raised DeadlineExceeded =>
      (Continue, mic w, banner ++ out ++ [deadline_line])
  | Raised KeyboardInterrupt =>
      (Break, __exit__ (mic w), banner ++ out ++ [YELLOW; exiting_line])
  | Raised (Other e) => (Uncaught e, mic w, banner ++ out)
  | Returns =>
      let s' := reset (mic w) in
      (Continue, s',
       banner ++ out
       ++ (if last_transcript_was_final s' then [] else [nl]))
  end.

(** [while not stream.closed:] over the requests of a run. *)
Fixpoint main_loop (run : list (list event)) (s : stream)
  : stream * list string :=
  match run with
  | [] => (s, [])
  | evs :: run' =>
      if closed s then (s, [])
      else
        let '(c, s', out) := main_iteration evs s in
        match c with
        | Break | Uncaught _ => (s', out)
        | Continue =>
            let '(s'', out') := main_loop run' s' in
            (s'', out ++ out')
        end
  end.

End Listen.

(** ** Vocabulary of the properties *)

(** The stream a generator step ends on. *)
Definition stream_of (st : step) : stream :=
  match st with
  | Yield _ s | Return s | Blocked _ s | Failed _ s => s
  end.

(** The fields that [generator] never assigns. *)
Definition generator_keeps (s s' : stream) : Prop :=
  closed s' = closed s /\
  start_time s' = start_time s /\
  restart_counter s' = restart_counter s /\
  last_audio_input s' = last_audio_input s /\
  result_end_time s' = result_end_time s /\
  is_final_end_time s' = is_final_end_time s /\
  final_request_end_time s' = final_request_end_time s /\
  last_transcript_was_final s' = last_transcript_was_final s.

(** The fields that nothing assigns while [listen_print_loop] runs. *)
Definition request_keeps (s s' : stream) : Prop :=
  closed s' = closed s /\
  restart_counter s' = restart_counter s /\
  last_audio_input s' = last_audio_input s /\
  final_request_end_time s' = final_request_end_time s.

(** The result that the loop body keeps from a response, if any. *)
Definition kept_result (response : Speech.response) : option Speech.result :=
  match Speech.results response with
  | [] => None
  | result :: _ =>
      match Speech.alternatives result with
      | [] => None
      | _ :: _ => Some result
      end
  end.

(** The result kept from a response with its end time in ms, or the
    exception that the computation of the end time raises. *)
Definition timed (response : Speech.response)
  : result (option (Speech.result * Z)) :=
  match kept_result response with
  | None => Ok None
  | Some result => let* time := end_time_ms result in Ok (Some (result, time))
  end.

(** How the loop over [evs] ends for a request started at [start]: by the
    first exception, by the first response read after the limit, or with
    the responses. *)
Fixpoint ending (start : Z) (evs : list event) : outcome :=
  match evs with
  | [] => Returns
  | Raises x :: _ => Raised x
  | Response now _ response :: evs' =>
      if now - start >? STREAMING_LIMIT then Returns
      else match timed response with
           | Raise e => Raised (Other e)
           | Ok _ => ending start evs'
           end
  | _ :: evs' => ending start evs'
  end.

(** The results processed by the loop over [evs], in the order received,
    each with its end time in ms. *)
Fixpoint processed (start : Z) (evs : list event)
  : list (Speech.result * Z) :=
  match evs with
  | [] => []
  | Raises _ :: _ => []
  | Response now _ response :: evs' =>
      if now - start >? STREAMING_LIMIT then []
      else match timed response with
           | Raise _ => []
           | Ok (Some p) => p :: processed start evs'
           | Ok None => processed start evs'
           end
  | _ :: evs' => processed start evs'
  end.

(** Whether a processed result is final. *)
Definition is_final (p : Speech.result * Z) : bool := Speech.is_final (fst p).

(** [xs] put one after the other. *)
Definition puts (xs q : list item) : list item :=
  fold_left (fun q' x => put x q') xs q.

(** [n] calls of [get()] in a row: the items read, oldest first, and the
    queue left; [None] when one of the calls blocks. *)
Fixpoint gets (n : nat) (q : list item) : option (list item * list item) :=
  match n with
  | O => Some ([], q)
  | S n' =>
      match get q with
      | None => None
      | Some (x, q') =>
          match gets n' q' with
          | Some (xs, q'') => Some (x :: xs, q'')
          | None => None
          end
      end
  end.

(** The results processed by the loop over [evs] on the session [w], each
    with the time [end time - bridging_offset + STREAMING_LIMIT *
    restart_counter] taken on the stream as it is when the response is
    read. *)
Fixpoint stamped (translate_client : string -> translation)
    (evs : list event) (w : session) : list (Speech.result * Z) :=
  match evs with
  | [] => []
  | Raises _ :: _ => []
  | Capture in_data :: evs' =>
      stamped translate_client evs' (with_mic (_fill_buffer in_data) w)
  | Request :: evs' => stamped translate_client evs' (next w)
  | Response now _ response :: evs' =>
      if now - start_time (mic w) >? STREAMING_LIMIT then []
      else
        match handle translate_client response no_transcripts (mic w) with
        | Raise _ => []
        | Ok (_, s') =>
            let rest :=
              stamped translate_client evs'
                (mkSession s' (audio_generator w) (requests w)) in
            match timed response with
            | Ok (Some (result, time)) =>
                (result,
                 time - bridging_offset (mic w)
                 + STREAMING_LIMIT * restart_counter (mic w)) :: rest
            | _ => rest
            end
        end
  end.

(** A line of the lists stands for a result and a time: it is the entry
    of the translation of its first alternative at that time. *)
Definition line_of (translate_client : string -> translation)
    (line : string) (p : Speech.result * Z) : Prop :=
  exists top,
    hd_error (Speech.alternatives (fst p)) = Some top /\
    line = entry (snd p) (translate_client (Speech.transcript top)).

(** The session that [main] starts on [s]. *)
Definition open_request (s : stream) : session :=
  mkSession (set_audio_input [] s) Suspended [].

(** The call of [listen_print_loop] that [main] makes on [s]. *)
Definition run_request (translate_client : string -> translation)
    (evs : list event) (s : stream) : outcome * session * list string :=
  listen_print_loop translate_client evs (open_request s).

(** ** Sample data *)

Definition chunk_no (i : nat) : bytes :=
  match Byte.of_nat i with
  | Some b => [b]
  | None => []
  end.

(** A stream at a restart, with [n] recorded chunks. *)
Definition restarted (n : nat) (final offset : Z) : stream :=
  mkStream [] false 0 1 [] (map (fun i => Some (chunk_no i)) (seq 0 n))
    0 final final offset true true.

Definition echo (text : string) : translation := mkTranslation text text.

Definition heard (text : string) (final : bool) (s ns : Z) : Speech.response :=
  Speech.mkResponse
    [Speech.mkResult [Speech.mkAlternative text] final
       (Speech.mkDuration s ns)].

Definition two_interim : list event :=
  [Response 100 100 (heard "a" false 1 0);
   Response 200 200 (heard "b" false 2 500000000)].

Definition started : stream := __enter__ (__init__ 0).

(** A first request: 100 chunks are recorded and sent, a final result ends
    at 9400 ms, and the next response is read after the limit. *)
Definition first_request : list event :=
  map (fun i => Capture (chunk_no i)) (seq 0 100)
  ++ [Request;
      Response 9500 9500 (heard "a" true 9 400000000);
      Response 10001 10002 (heard "b" false 9 900000000)].

(** The request that follows: one more chunk, then a final result ending
    at 1000 ms of the new request. *)
Definition second_request : list event :=
  [Capture (chunk_no 100); Request;
   Response 10500 10500 (heard "c" true 1 0)].

(** A request that sends one chunk and ends by [DeadlineExceeded]. *)
Definition deadline_request : list event :=
  [Capture (chunk_no 100); Request; Raises DeadlineExceeded].

(** A request of 100 chunks with a final result that ends at 5000 ms; the
    next response is read after the limit. *)
Definition third_request : list event :=
  map (fun i => Capture (chunk_no (101 + i))) (seq 0 100)
  ++ [Request;
      Response 15500 15500 (heard "c" true 5 0);
      Response 20003 20004 (heard "d" false 9 0)].

(** The audio parameters of [main] ([CHUNK_SIZE] is
    [int(SAMPLE_RATE / 10)], an exact quotient), and the duration in ms of
    the audio of a chunk: [CHUNK_SIZE] frames at [SAMPLE_RATE] frames per
    second. *)
Definition SAMPLE_RATE : Z := 16000.
Definition CHUNK_SIZE : Z := SAMPLE_RATE / 10.
Definition chunk_ms : Z := 1000 * CHUNK_SIZE / SAMPLE_RATE.

(** ** Vocabulary of the further properties *)

(** An item that is a chunk, not the close signal. *)
Definition is_chunk (x : item) : Prop := x <> None.

(** The bytes of the chunks of a list of items. *)
Definition chunk_bytes (l : list item) : bytes :=
  flat_map (fun x => match x with Some c => c | None => [] end) l.

(** An open stream that holds no close signal: neither in the queue nor in
    the two lists of recorded audio. *)
Definition clean (s : stream) : Prop :=
  closed s = false /\
  Forall is_chunk (_buff s) /\
  Forall is_chunk (audio_input s) /\
  Forall is_chunk (last_audio_input s).

(** The items held by a generator that waits in [get()]. *)
Definition held (g : generator_object) : list item :=
  match g with
  | Waiting data => data
  | Suspended | Finished => []
  end.

(** The chunks that the audio callback delivers before the loop over [evs]
    ends, in order. *)
Fixpoint captured (start : Z) (evs : list event) : list bytes :=
  match evs with
  | [] => []
  | Raises _ :: _ => []
  | Response now _ response :: evs' =>
      if now - start >? STREAMING_LIMIT then []
      else match timed response with
           | Raise _ => []
           | Ok _ => captured start evs'
           end
  | Capture in_data :: evs' => in_data :: captured start evs'
  | Request :: evs' => captured start evs'
  end.

(** The second clock reading of the response that ends the loop by the
    limit, if the loop ends that way. *)
Fixpoint limit_break (start : Z) (evs : list event) : option Z :=
  match evs with
  | [] => None
  | Raises _ :: _ => None
  | Response now now' response :: evs' =>
      if now - start >? STREAMING_LIMIT then Some now'
      else match timed response with
           | Raise _ => None
           | Ok _ => limit_break start evs'
           end
  | _ :: evs' => limit_break start evs'
  end.

(** A session on a clean stream whose generator holds only chunks. *)
Definition tidy (w : session) : Prop :=
  clean (mic w) /\ Forall is_chunk (held (audio_generator w)).

(** The offset and the flag are as at the start of the request, or the
    request started with the flag set and recorded audio, and they are as
    the replay on the stream at the start of the request leaves them. *)
Definition offset_state (s0 s : stream) : Prop :=
  (bridging_offset s = bridging_offset s0 /\ new_stream s = new_stream s0)
  \/
  (new_stream s0 = true /\ last_audio_input s0 <> [] /\
   bridging_offset s = bridging_offset (snd (replay s0)) /\
   new_stream s = new_stream (snd (replay s0))).

(** The same for a session: once the replay has run, it cannot run again,
    the flag being cleared or the generator ended. *)
Definition offset_session (s0 : stream) (w : session) : Prop :=
  (bridging_offset (mic w) = bridging_offset s0 /\
   new_stream (mic w) = new_stream s0)
  \/
  (new_stream s0 = true /\ last_audio_input s0 <> [] /\
   bridging_offset (mic w) = bridging_offset (snd (replay s0)) /\
   new_stream (mic w) = new_stream (snd (replay s0)) /\
   (new_stream (mic w) = false \/ audio_generator w = Finished)).

(** A float that is not a NaN, and one that is not below zero. *)
Definition not_nan (x : Py.float) : Prop := x <> SpecFloat.S754_nan.

Definition not_negative (x : Py.float) : Prop :=
  match x with
  | SpecFloat.S754_finite sign _ _ | SpecFloat.S754_infinity sign =>
      sign = false
  | _ => True
  end.

(** ** Binary64 results *)

Section Floats.

Import SpecFloat.

Lemma iter_pos_keeps {A : Type} (P : A -> Prop) (f : A -> A) :
  (forall x, P x -> P (f x)) ->
  forall (p : positive) (x : A), P x -> P (iter_pos f p x).
Proof.
  intros H. induction p as [p IH | p IH |]; intros x X; cbn.
  - apply IH, IH, H, X.
  - apply IH, IH, X.
  - apply H, X.
Qed.

Lemma shr_1_nonneg (mrs : shr_record) :
  0 <= shr_m mrs -> 0 <= shr_m (shr_1 mrs).
Proof.
  destruct mrs as [m r s]. cbn.
  destruct m as [| [p | p |] | p]; cbn; lia.
Qed.

Lemma shr_fexp_nonneg (m e : Z) (l : location) :
  0 <= m -> 0 <= shr_m (fst (shr_fexp Py.prec Py.emax m e l)).
Proof.
  intros M. unfold shr_fexp, shr.
  assert (R : 0 <= shr_m (shr_record_of_loc m l)).
  { destruct l as [| []]; exact M. }
  destruct (_ - e) as [| p | p]; cbn [fst]; try exact R.
  apply (iter_pos_keeps (fun x => 0 <= shr_m x));
    [apply shr_1_nonneg | exact R].
Qed.

(** A rounded number is a zero, a finite number or an infinity of the sign
    given, never a NaN. *)
Lemma binary_round_aux_cases (sx : bool) (m e : Z) (l : location) :
  0 <= m ->
  let x := binary_round_aux Py.prec Py.emax sx m e l in
  not_nan x /\
  match x with
  | S754_finite sign _ _ | S754_infinity sign | S754_zero sign => sign = sx
  | S754_nan => True
  end.
Proof.
  intros M. unfold binary_round_aux.
  pose proof (shr_fexp_nonneg m e l M) as N1.
  destruct (shr_fexp Py.prec Py.emax m e l) as [mrs' e']. cbn [fst] in N1.
  assert (N2 : 0 <= round_nearest_even (shr_m mrs') (loc_of_shr_record mrs')).
  { unfold round_nearest_even.
    destruct (loc_of_shr_record mrs') as [| []]; try lia.
    destruct (Z.even _); lia. }
  pose proof (shr_fexp_nonneg _ e' loc_Exact N2) as N3.
  destruct (shr_fexp Py.prec Py.emax _ e' loc_Exact) as [mrs'' e''].
  cbn [fst] in N3. unfold not_nan.
  destruct (shr_m mrs'') as [| p | p]; [| destruct (_ <=? _) |]; cbn;
    try (split; [discriminate | reflexivity]).
  lia.
Qed.

Lemma binary_normalize_cases (z : Z) :
  let x := binary_normalize Py.prec Py.emax z 0 false in
  not_nan x /\ (0 <= z -> not_negative x).
Proof.
  unfold binary_normalize, binary_round.
  destruct z as [| p | p].
  - split; [discriminate | intros _; exact I].
  - destruct (shl_align _ _ _) as [mz ez].
    pose proof (binary_round_aux_cases false (Z.pos mz) ez loc_Exact
                  ltac:(lia)) as [N S].
    split; [exact N | intros _].
    destruct (binary_round_aux _ _ _ _ _ _); cbn; trivial.
  - destruct (shl_align _ _ _) as [mz ez].
    pose proof (binary_round_aux_cases true (Z.pos mz) ez loc_Exact
                  ltac:(lia)) as [N S].
    split; [exact N | lia].
Qed.

Lemma float_of_int_cases (z : Z) (x : Py.float) :
  Py.float_of_int z = Ok x ->
  not_nan x /\ (0 <= z -> not_negative x).
Proof.
  unfold Py.float_of_int, Py.fitting.
  pose proof (binary_normalize_cases z) as H. cbv zeta in H.
  destruct (binary_normalize _ _ _ _ _); intros E; inversion E; subst;
    exact H.
Qed.

Lemma fitting_raises (x : Py.float) (e : exn) :
  Py.fitting x = Raise e -> e = OverflowError.
Proof. destruct x; cbn; congruence. Qed.

Lemma float_of_int_raises (z : Z) (e : exn) :
  Py.float_of_int z = Raise e -> e = OverflowError.
Proof. apply fitting_raises. Qed.

Lemma div_eucl_nonneg (a b : Z) :
  0 <= a -> 0 < b -> 0 <= fst (Z.div_eucl a b).
Proof.
  intros A B. pose proof (Z.div_pos a b A B) as H.
  unfold Z.div in H. destruct (Z.div_eucl a b). exact H.
Qed.

Lemma SFdiv_finite_cases (sx sy : bool) (mx my : positive) (ex ey : Z) :
  let x := SFdiv Py.prec Py.emax (S754_finite sx mx ex) (S754_finite sy my ey)
  in
  not_nan x /\
  match x with
  | S754_finite sign _ _ | S754_infinity sign | S754_zero sign =>
      sign = xorb sx sy
  | S754_nan => True
  end.
Proof.
  cbn [SFdiv]. unfold SFdiv_core_binary.
  set (s := _ - _ - _).
  set (m' := match s with Z.pos _ => _ | 0 => _ | Z.neg _ => _ end).
  assert (M : 0 <= m').
  { subst m'. destruct s; try lia. apply Z.shiftl_nonneg. lia. }
  pose proof (div_eucl_nonneg m' (Z.pos my) M ltac:(lia)) as Q.
  destruct (Z.div_eucl m' (Z.pos my)) as [q r]. cbn [fst] in Q.
  apply binary_round_aux_cases. exact Q.
Qed.

Lemma int_truediv_cases (a b : Z) (x : Py.float) :
  Py.int_truediv a b = Ok x ->
  not_nan x /\ (0 <= a -> 0 < b -> not_negative x).
Proof.
  unfold Py.int_truediv. destruct (b =? 0) eqn:B; [discriminate |].
  apply Z.eqb_neq in B. unfold Py.fitting.
  destruct a as [| p | p]; destruct b as [| q | q]; try lia;
    cbn [Py.mantissa];
    try (cbn; intros E; inversion E; subst; split;
         [discriminate | intros; exact I]).
  all: match goal with
       | |- context [SFdiv _ _ (S754_finite ?sx ?mx ?ex)
                       (S754_finite ?sy ?my ?ey)] =>
           pose proof (SFdiv_finite_cases sx sy mx my ex ey) as [N S];
           cbv zeta in N, S;
           destruct (SFdiv Py.prec Py.emax (S754_finite sx mx ex)
                       (S754_finite sy my ey))
       end; intros E; inversion E; subst; (split; [exact N |]);
    cbn in *; intros; try lia; try exact I; try assumption.
Qed.

Lemma int_truediv_raises (a b : Z) (e : exn) :
  b <> 0 -> Py.int_truediv a b = Raise e -> e = OverflowError.
Proof.
  intros B. unfold Py.int_truediv.
  destruct (Z.eqb_spec b 0); [contradiction |]. apply fitting_raises.
Qed.

Lemma truediv_cases (x y q : Py.float) :
  not_nan x -> not_nan y -> Py.fitting x = Ok x ->
  Py.truediv x y = Ok q ->
  not_nan q /\ (not_negative x -> not_negative y -> not_negative q).
Proof.
  unfold Py.truediv, not_nan. intros X Y FX.
  destruct (Py.is_zero y) eqn:Z0; [discriminate |].
  intros E. inversion E; subst; clear E.
  destruct x as [sx | sx | | sx mx ex]; try discriminate; try congruence;
    destruct y as [sy | sy | | sy my ey]; try discriminate; try congruence.
  - cbn. split; [discriminate | trivial].
  - cbn. split; [discriminate | trivial].
  - cbn. split; [discriminate | trivial].
  - pose proof (SFdiv_finite_cases sx sy mx my ex ey) as [N S].
    cbv zeta in N, S. split; [exact N |].
    cbn [not_negative]. intros -> ->.
    destruct (SFdiv _ _ _ _); cbn in *; trivial.
Qed.

Lemma mul_cases (x y : Py.float) :
  not_nan x -> not_nan y -> Py.fitting x = Ok x -> Py.fitting y = Ok y ->
  not_nan (Py.mul x y).
Proof.
  unfold not_nan, Py.mul. intros X Y FX FY.
  destruct x as [sx | sx | | sx mx ex]; try discriminate; try congruence;
    destruct y as [sy | sy | | sy my ey]; try discriminate; try congruence.
  cbn [SFmul].
  apply (binary_round_aux_cases (xorb sx sy) (Z.pos (mx * my)) (ex + ey)
           loc_Exact). lia.
Qed.

Lemma exact_nonneg (x : Py.float) (q : Q) :
  not_negative x -> Py.exact x = Some q -> (0 <= q)%Q.
Proof.
  destruct x as [s | s | | s m e]; unfold Py.exact, not_negative;
    try discriminate.
  - intros _ E. injection E as <-. apply Qle_refl.
  - intros -> E. injection E as <-.
    destruct (e <? 0).
    + unfold Qle. cbn [Qnum Qden]. lia.
    + change (0 * 1 <= Z.pos m * 2 ^ e * 1).
      pose proof (Z.pow_nonneg 2 e ltac:(lia)) as P.
      assert (0 <= Z.pos m * 2 ^ e)
        by (apply Z.mul_nonneg_nonneg; [apply Pos2Z.is_nonneg | exact P]).
      lia.
Qed.

End Floats.

(** ** Arithmetic of [round] *)

Lemma round_nonneg (x : Q) : (0 <= x)%Q -> 0 <= Py.round_half_even x.
Proof.
  destruct x as [n d]. unfold Py.round_half_even, Qle. cbn [Qnum Qden].
  intros H. assert (0 <= n) by lia.
  pose proof (Z.div_pos n (Z.pos d) ltac:(lia) ltac:(lia)) as F.
  destruct (Z.compare_spec (2 * (n mod Z.pos d)) (Z.pos d));
    [destruct (Z.even (n / Z.pos d)) | | ]; lia.
Qed.

Lemma fitting_ok (y x : Py.float) :
  Py.fitting y = Ok x -> x = y /\ Py.fitting x = Ok x.
Proof.
  destruct y; cbn; intros E; inversion E; subst; split; reflexivity.
Qed.

Lemma integer_raises (f : Q -> Z) (x : Py.float) (e : exn) :
  not_nan x -> Py.integer f x = Raise e -> e = OverflowError.
Proof.
  unfold not_nan. destruct x; cbn; congruence.
Qed.

Lemma round_not_negative (x : Py.float) (k : Z) :
  not_negative x -> Py.round x = Ok k -> 0 <= k.
Proof.
  intros N. unfold Py.round, Py.integer.
  destruct (Py.exact x) as [q |] eqn:E.
  - pose proof (exact_nonneg x q N E) as Q0.
    destruct x; try discriminate; intros H; injection H as <-;
      apply round_nonneg; exact Q0.
  - destruct x; discriminate.
Qed.


(** ** Reading a suffix with [range] *)

Section Suffix.

Context {A : Type}.

Lemma getitem_nat (l : list A) (i : nat) (x : A) :
  nth_error l i = Some x -> Py.getitem l (Z.of_nat i) = Ok x.
Proof.
  intros H. unfold Py.getitem.
  destruct (Z.ltb_spec (Z.of_nat i) 0) as [F | _]; [lia |].
  destruct (Z.ltb_spec (Z.of_nat i) 0) as [F | _]; [lia |].
  rewrite Nat2Z.id, H. reflexivity.
Qed.

Lemma skipn_cons_nth (l : list A) (i : nat) (x : A) :
  nth_error l i = Some x -> skipn i l = x :: skipn (S i) l.
Proof.
  revert i. induction l as [| y l IH]; intros [| i] H; cbn in *;
    try discriminate.
  - congruence.
  - apply IH. exact H.
Qed.

Lemma extend_from_offsets (l : list A) (m a : nat) (data : list A) :
  (a + m = length l)%nat ->
  Py.extend_from l
    (map (fun i => Z.of_nat a + Z.of_nat i) (seq 0 m)) data
  = Ok (data ++ skipn a l).
Proof.
  revert a data. induction m as [| m IH]; intros a data E.
  - cbn. rewrite skipn_all2 by lia. rewrite app_nil_r. reflexivity.
  - destruct (nth_error l a) as [x |] eqn:N.
    2: { apply nth_error_None in N. lia. }
    cbn [seq map Py.extend_from]. rewrite Z.add_0_r.
    rewrite (getitem_nat _ _ _ N). cbn [bind].
    rewrite <- seq_shift, map_map.
    rewrite (map_ext _ (fun i => Z.of_nat (S a) + Z.of_nat i))
      by (intros; lia).
    rewrite IH by lia.
    rewrite (skipn_cons_nth _ _ _ N), <- app_assoc. reflexivity.
Qed.

Lemma extend_from_range (l : list A) (k : Z) :
  0 <= k ->
  Py.extend_from l (Py.range k (Z.of_nat (length l))) []
  = Ok (skipn (Z.to_nat k) l).
Proof.
  intros K. unfold Py.range.
  destruct (Z.le_gt_cases k (Z.of_nat (length l))) as [L | G].
  - rewrite (map_ext _ (fun i => Z.of_nat (Z.to_nat k) + Z.of_nat i))
      by (intros; lia).
    rewrite extend_from_offsets by lia. reflexivity.
  - replace (Z.to_nat (Z.of_nat (length l) - k)) with 0%nat by lia.
    rewrite skipn_all2 by lia. reflexivity.
Qed.

End Suffix.

(** ** The replay in closed form *)

Lemma clamp_offset_le (offset final : Z) : clamp_offset offset final <= final.
Proof.
  unfold clamp_offset.
  destruct (offset <? 0) eqn:E; destruct (_ >? final) eqn:G; lia.
Qed.

Lemma clamp_offset_nonneg (offset final : Z) :
  0 <= final -> 0 <= clamp_offset offset final.
Proof.
  unfold clamp_offset.
  destruct (offset <? 0) eqn:E; destruct (_ >? final) eqn:G; lia.
Qed.

Lemma guard_offset_spec (s : stream) :
  guard_offset s
  = set_bridging_offset
      (clamp_offset (bridging_offset s) (final_request_end_time s)) s.
Proof.
  destruct s as [q c t rc a la re fe fr bo lf ns].
  unfold guard_offset, clamp_offset, set_bridging_offset. cbn.
  destruct (bo <? 0); cbn; [destruct (0 >? fr) | destruct (bo >? fr)];
    reflexivity.
Qed.

(** With a positive limit the index of the first chunk sent again is not
    negative. *)
Lemma chunks_from_ms_nonneg (limit : Z) (n : nat) (final offset k : Z) :
  0 < limit -> (0 < n)%nat ->
  chunks_from_ms_of limit n final offset = Ok k -> 0 <= k.
Proof.
  intros L N. unfold chunks_from_ms_of, chunk_time_of.
  destruct (Py.int_truediv limit (Z.of_nat n)) as [ct |] eqn:C;
    cbn [bind]; [| discriminate].
  destruct (Py.float_of_int _) as [x |] eqn:X; cbn [bind]; [| discriminate].
  destruct (Py.truediv x ct) as [q |] eqn:D; cbn [bind]; [| discriminate].
  destruct (int_truediv_cases _ _ _ C) as [Nc Sc].
  destruct (float_of_int_cases _ _ X) as [Nx Sx].
  destruct (fitting_ok _ _ X) as [_ Fx].
  destruct (truediv_cases x ct q Nx Nc Fx D) as [_ Sq].
  pose proof (clamp_offset_le offset final).
  apply round_not_negative. apply Sq; [apply Sx | apply Sc]; lia.
Qed.

Lemma replay_with_closed_form (limit : Z) (s : stream) :
  0 < limit -> new_stream s = true -> last_audio_input s <> [] ->
  let n := length (last_audio_input s) in
  let final := final_request_end_time s in
  replay_with limit s
  = match chunk_time_of limit n with
    | Raise e => (Raise e, s)
    | Ok chunk_time =>
        if Py.is_zero chunk_time then (Ok [], set_new_stream false s)
        else
          match chunks_from_ms_of limit n final (bridging_offset s),
                next_offset_of limit n final (bridging_offset s) with
          | Ok k, Ok offset =>
              (Ok (skipn (Z.to_nat k) (last_audio_input s)),
               set_new_stream false (set_bridging_offset offset s))
          | Raise e, _ | Ok _, Raise e => (Raise e, guard_offset s)
          end
    end.
Proof.
  intros L NS NE n final.
  assert (N : (0 < n)%nat).
  { subst n. destruct (last_audio_input s); [congruence | cbn; lia]. }
  pose proof (chunks_from_ms_nonneg limit n final (bridging_offset s)) as K.
  revert K.
  unfold replay_with, next_offset_of, chunks_from_ms_of, chunk_time_of.
  fold n. rewrite NS.
  replace (Nat.eqb n 0) with false by (symmetry; apply Nat.eqb_neq; lia).
  cbn [andb negb].
  destruct (Py.int_truediv limit (Z.of_nat n)) as [ct |]; cbn [bind];
    [| reflexivity].
  destruct (Py.is_zero ct); cbn [negb]; [reflexivity |].
  rewrite guard_offset_spec.
  cbn [final_request_end_time bridging_offset last_audio_input
       set_bridging_offset]. fold final.
  destruct (let* x := Py.float_of_int _ in _) as [k |]; [| reflexivity].
  intros K. specialize (K k L N eq_refl).
  cbn [bind].
  destruct (let* y := Py.float_of_int _ in _) as [b |]; [| reflexivity].
  subst n. rewrite extend_from_range by exact K.
  destruct s; reflexivity.
Qed.

(** The exceptions of the replay. *)
Lemma chunks_from_ms_raises (limit : Z) (n : nat) (final offset : Z)
    (chunk_time : Py.float) (e : exn) :
  chunk_time_of limit n = Ok chunk_time -> Py.is_zero chunk_time = false ->
  chunks_from_ms_of limit n final offset = Raise e -> e = OverflowError.
Proof.
  intros C Z0. unfold chunks_from_ms_of. rewrite C. cbn [bind].
  destruct (Py.float_of_int _) as [x |] eqn:X; cbn [bind].
  2: { intros H. injection H as <-. exact (float_of_int_raises _ _ X). }
  destruct (float_of_int_cases _ _ X) as [Nx _].
  destruct (fitting_ok _ _ X) as [_ Fx].
  destruct (int_truediv_cases _ _ _ C) as [Nc _].
  destruct (Py.truediv x chunk_time) as [q |] eqn:D; cbn [bind].
  - destruct (truediv_cases x chunk_time q Nx Nc Fx D) as [Nq _].
    apply integer_raises. exact Nq.
  - unfold Py.truediv in D. rewrite Z0 in D. discriminate D.
Qed.

Lemma next_offset_raises (limit : Z) (n : nat) (final offset k : Z)
    (chunk_time : Py.float) (e : exn) :
  chunk_time_of limit n = Ok chunk_time ->
  chunks_from_ms_of limit n final offset = Ok k ->
  next_offset_of limit n final offset = Raise e -> e = OverflowError.
Proof.
  intros C K. unfold next_offset_of. rewrite C, K. cbn [bind].
  destruct (Py.float_of_int _) as [y |] eqn:Y; cbn [bind].
  2: { intros H. injection H as <-. exact (float_of_int_raises _ _ Y). }
  destruct (float_of_int_cases _ _ Y) as [Ny _].
  destruct (fitting_ok _ _ Y) as [_ Fy].
  destruct (int_truediv_cases _ _ _ C) as [Nc _].
  unfold chunk_time_of, Py.int_truediv in C.
  destruct (_ =? 0); [discriminate |].
  destruct (fitting_ok _ _ C) as [_ Fc].
  apply integer_raises. apply mul_cases; assumption.
Qed.

Lemma replay_raises (s s' : stream) (e : exn) :
  replay s = (Raise e, s') ->
  e = OverflowError /\ (s' = s \/ s' = guard_offset s) /\
  new_stream s = true /\ last_audio_input s <> [].
Proof.
  destruct (new_stream s) eqn:NS.
  2: { unfold replay, replay_with. rewrite NS. discriminate. }
  destruct (last_audio_input s) as [| x l] eqn:LA.
  { unfold replay, replay_with. rewrite NS, LA. discriminate. }
  assert (NE : last_audio_input s <> []) by (rewrite LA; discriminate).
  unfold replay.
  rewrite (replay_with_closed_form STREAMING_LIMIT s eq_refl NS NE).
  cbv zeta. rewrite <- LA.
  destruct (chunk_time_of _ _) as [ct |] eqn:C.
  - destruct (Py.is_zero ct) eqn:Z0; [discriminate |].
    destruct (chunks_from_ms_of _ _ _ _) as [k |] eqn:K.
    + destruct (next_offset_of _ _ _ _) as [b |] eqn:B; [discriminate |].
      intros H. injection H as <- <-.
      pose proof (next_offset_raises _ _ _ _ _ _ _ C K B). auto.
    + intros H. injection H as <- <-.
      pose proof (chunks_from_ms_raises _ _ _ _ _ _ C Z0 K). auto.
  - intros H. injection H as <- <-.
    unfold chunk_time_of in C. apply int_truediv_raises in C.
    + auto.
    + rewrite LA. cbn. lia.
Qed.

(** ** The replayed suffix *)

(** C1, as the claim states it, fails.  A first request of 100 chunks
    ends by the limit with the final point at 9400 ms; the next request
    replays the chunks 94 to 99, stores [bridging_offset = 600] and ends by
    [DeadlineExceeded]; the third request therefore sends no replay: its
    audio is its own 100 chunks, chunk [i] ending [(i + 1) * 100] ms after
    the start, and it ends by the limit with the final point at 5000 ms.
    The replay of the fourth request starts at index 44, so that the chunks
    44 to 49, which end at or before the final point, are sent again. *)
Lemma finalized_audio_resent :
  let s3 := fst (main_loop echo [first_request; deadline_request] started) in
  let r := run_request echo third_request s3 in
  let s4 := snd (fst (main_iteration echo third_request s3)) in
  bridging_offset s3 = 600 /\ new_stream s3 = false /\
  requests (snd (fst r)) = [chunk_bytes (last_audio_input s4)] /\
  length (last_audio_input s4) = 100%nat /\
  final_request_end_time s4 = 5000 /\
  chunk_ms = 100 /\
  fst (replay s4) = Ok (skipn 44 (last_audio_input s4)) /\
  (forall i, 44 <= i <= 49 -> (i + 1) * chunk_ms <= final_request_end_time s4).
Proof.
  cbv zeta.
  assert (F : final_request_end_time
                (snd (fst (main_iteration echo third_request
                             (fst (main_loop echo
                                     [first_request; deadline_request]
                                     started)))))
              = 5000) by (vm_compute; reflexivity).
  repeat match goal with |- _ /\ _ => split end;
    try (vm_compute; reflexivity).
  intros i I. rewrite F. change chunk_ms with 100. lia.
Qed.

(** C1, amended.  At a restart that computes a replay ([new_stream] set,
    [last_audio_input] not empty) the step is determined by three binary64
    values.  When the chunk duration [STREAMING_LIMIT / len] cannot be
    computed the step raises and changes nothing; when it is zero the step
    selects nothing.  Otherwise, when [chunks_from_ms], the rounded
    quotient of [final_request_end_time - bridging_offset] (after the
    guards) by the chunk duration, and the next offset can be computed,
    the step puts in [data] the suffix of [last_audio_input] that starts at
    index [chunks_from_ms], and stores the next offset; when one of them
    cannot, it raises with the guarded offset stored.  The index is never
    negative. *)
Theorem replay_is_suffix (s : stream) :
  new_stream s = true -> last_audio_input s <> [] ->
  let n := length (last_audio_input s) in
  let final := final_request_end_time s in
  replay s
  = match chunk_time_of STREAMING_LIMIT n with
    | Raise e => (Raise e, s)
    | Ok chunk_time =>
        if Py.is_zero chunk_time then (Ok [], set_new_stream false s)
        else
          match chunks_from_ms_of STREAMING_LIMIT n final (bridging_offset s),
                next_offset_of STREAMING_LIMIT n final (bridging_offset s) with
          | Ok k, Ok offset =>
              (Ok (skipn (Z.to_nat k) (last_audio_input s)),
               set_new_stream false (set_bridging_offset offset s))
          | Raise e, _ | Ok _, Raise e => (Raise e, guard_offset s)
          end
    end
  /\
  (forall k,
      chunks_from_ms_of STREAMING_LIMIT n final (bridging_offset s) = Ok k ->
      0 <= k).
Proof.
  intros NS NE n final. split.
  - apply (replay_with_closed_form STREAMING_LIMIT s eq_refl NS NE).
  - intros k. apply chunks_from_ms_nonneg; [reflexivity |].
    subst n. destruct (last_audio_input s); [congruence | cbn; lia].
Qed.

Lemma replay_is_suffix_witness :
  replay (restarted 100 9449 600)
  = (Ok (skipn 88 (last_audio_input (restarted 100 9449 600))),
     set_new_stream false
       (set_bridging_offset 1200 (restarted 100 9449 600))).
Proof.
  destruct (replay_is_suffix (restarted 100 9449 600) eq_refl
              ltac:(discriminate)) as [H _].
  rewrite H. vm_compute. reflexivity.
Defined.

(** ** Scenario A *)

Lemma scenario_A_values :
  exists chunk_time,
    chunk_time_of STREAMING_LIMIT 100 = Ok chunk_time /\
    Py.is_zero chunk_time = false /\
    (exists q, Py.exact chunk_time = Some q /\ (q == 100)%Q) /\
    chunks_from_ms_of STREAMING_LIMIT 100 9400 0 = Ok 94 /\
    next_offset_of STREAMING_LIMIT 100 9400 0 = Ok 600.
Proof.
  eexists. split; [vm_compute; reflexivity |].
  split; [reflexivity |]. split.
  - eexists. split; [reflexivity | reflexivity].
  - split; vm_compute; reflexivity.
Qed.

(** C2.  With the limit of 10000 ms, 100 chunks in [last_audio_input]
    (100 ms each), [final_request_end_time = 9400] and
    [bridging_offset = 0], [chunks_from_ms] is 94, the chunks sent again
    are those at indices 94 to 99 (six of them), and [bridging_offset]
    becomes 600. *)
Theorem scenario_A (s : stream) :
  new_stream s = true ->
  length (last_audio_input s) = 100%nat ->
  final_request_end_time s = 9400 ->
  bridging_offset s = 0 ->
  STREAMING_LIMIT = 10000 /\
  (exists chunk_time q,
      chunk_time_of STREAMING_LIMIT (length (last_audio_input s))
      = Ok chunk_time /\
      Py.exact chunk_time = Some q /\ (q == 100)%Q) /\
  chunks_from_ms_of STREAMING_LIMIT (length (last_audio_input s)) 9400 0
  = Ok 94 /\
  replay s
  = (Ok (skipn 94 (last_audio_input s)),
     set_new_stream false (set_bridging_offset 600 s)) /\
  length (skipn 94 (last_audio_input s)) = 6%nat /\
  (forall j, (j < 6)%nat ->
             nth_error (skipn 94 (last_audio_input s)) j
             = nth_error (last_audio_input s) (94 + j)).
Proof.
  intros NS Len F B.
  assert (NE : last_audio_input s <> []).
  { intros E. rewrite E in Len. discriminate Len. }
  pose proof (replay_with_closed_form STREAMING_LIMIT s eq_refl NS NE) as R.
  cbv zeta in R. rewrite Len, F, B in R. rewrite Len.
  destruct scenario_A_values as (ct & C & Z0 & (q & E & Q100) & K & O).
  rewrite C, Z0, K, O in R.
  split; [reflexivity |]. split; [exists ct, q; auto |].
  split; [exact K |]. split; [exact R |]. split.
  - rewrite length_skipn, Len. reflexivity.
  - intros j _. apply nth_error_skipn.
Qed.

Lemma scenario_A_witness :
  replay (restarted 100 9400 0)
  = (Ok (map (fun i => Some (chunk_no i)) [94; 95; 96; 97; 98; 99]%nat),
     set_new_stream false (set_bridging_offset 600 (restarted 100 9400 0))).
Proof.
  destruct (scenario_A (restarted 100 9400 0) eq_refl eq_refl eq_refl eq_refl)
    as (_ & _ & _ & H & _).
  exact H.
Defined.

(** ** Binary64 rounding in the two computations *)

(** With 95 chunks and the final point at 3000 ms the quotient [28.5] is
    computed as a number just above it and rounded to 29; with 7 chunks and
    the final point at 5000 ms the quotient [3.5] is computed as a number
    just below it and rounded to 3. *)
Lemma replay_near_a_tie :
  chunks_from_ms_of STREAMING_LIMIT 95 3000 0 = Ok 29 /\
  next_offset_of STREAMING_LIMIT 95 3000 0 = Ok 6947 /\
  chunks_from_ms_of STREAMING_LIMIT 7 5000 0 = Ok 3 /\
  next_offset_of STREAMING_LIMIT 7 5000 0 = Ok 5714.
Proof. vm_compute. repeat split. Qed.

(** The end time of a result is cut to the millisecond, unless the sum is
    so large that binary64 rounds it up to the next one. *)
Lemma end_time_ms_examples :
  end_time_ms (Speech.mkResult [] false (Speech.mkDuration 9 999999999))
  = Ok 9999 /\
  end_time_ms (Speech.mkResult [] false (Speech.mkDuration 17179870 999999999))
  = Ok 17179871000 /\
  end_time_ms (Speech.mkResult [] false (Speech.mkDuration (2 ^ 1024) 0))
  = Raise OverflowError.
Proof. vm_compute. repeat split. Qed.

(** ** Bounds of the bridging offset *)

(** C5, as the claim states it, fails: with 100 chunks, the final point at
    1000 ms and no offset carried in, the step leaves
    [bridging_offset = 9000], above [final_request_end_time = 1000]. *)
Lemma offset_above_final :
  exists data s',
    replay (restarted 100 1000 0) = (Ok data, s') /\
    bridging_offset s' = 9000 /\
    final_request_end_time s' = 1000 /\
    ~ (0 <= bridging_offset s' <= final_request_end_time s').
Proof.
  eexists. eexists. split; [vm_compute; reflexivity |].
  cbn. repeat split. lia.
Qed.

Lemma next_offset_steps (limit : Z) (n : nat) (final offset b : Z) :
  next_offset_of limit n final offset = Ok b ->
  exists chunk_time x q k y,
    chunk_time_of limit n = Ok chunk_time /\
    Py.float_of_int (final - clamp_offset offset final) = Ok x /\
    Py.truediv x chunk_time = Ok q /\
    Py.round q = Ok k /\
    Py.float_of_int (Z.of_nat n - k) = Ok y /\
    Py.round (Py.mul y chunk_time) = Ok b.
Proof.
  unfold next_offset_of, chunks_from_ms_of.
  destruct (chunk_time_of limit n) as [ct |]; cbn [bind]; [| discriminate].
  destruct (Py.float_of_int (final - _)) as [x |] eqn:X; cbn [bind];
    [| discriminate].
  destruct (Py.truediv x ct) as [q |] eqn:Q; cbn [bind]; [| discriminate].
  destruct (Py.round q) as [k |] eqn:K; cbn [bind]; [| discriminate].
  destruct (Py.float_of_int (Z.of_nat n - k)) as [y |] eqn:Y; cbn [bind];
    [| discriminate].
  intros B. exists ct, x, q, k, y. auto 10.
Qed.

(** C5, amended.  The guards that precede the computation put
    [bridging_offset] between 0 and [final_request_end_time] when the
    latter is not negative, and change nothing else.  When the step
    returns, either the chunk duration is zero and [bridging_offset] is
    left as it was, or [chunks_from_ms] has been computed from the guarded
    value and [bridging_offset] holds the rounded product of the number of
    chunks sent again by the chunk duration, each operation in binary64.
    When the step raises, it is by [OverflowError], before the guards or
    with the guarded value stored. *)
Theorem guard_offset_bounds (s : stream) :
  0 <= final_request_end_time s ->
  new_stream s = true -> last_audio_input s <> [] ->
  let g := guard_offset s in
  let n := length (last_audio_input s) in
  0 <= bridging_offset g <= final_request_end_time g /\
  g = set_bridging_offset
        (clamp_offset (bridging_offset s) (final_request_end_time s)) s /\
  match replay s with
  | (Ok data, s') =>
      (exists chunk_time,
          chunk_time_of STREAMING_LIMIT n = Ok chunk_time /\
          Py.is_zero chunk_time = true /\
          bridging_offset s' = bridging_offset s)
      \/
      (exists chunk_time x q chunks_from_ms y,
          chunk_time_of STREAMING_LIMIT n = Ok chunk_time /\
          Py.float_of_int (final_request_end_time g - bridging_offset g)
          = Ok x /\
          Py.truediv x chunk_time = Ok q /\
          Py.round q = Ok chunks_from_ms /\
          Py.float_of_int (Z.of_nat n - chunks_from_ms) = Ok y /\
          Py.round (Py.mul y chunk_time) = Ok (bridging_offset s'))
  | (Raise e, s') => e = OverflowError /\ (s' = s \/ s' = g)
  end.
Proof.
  intros F NS NE g n. subst g.
  pose proof (clamp_offset_le (bridging_offset s) (final_request_end_time s)).
  pose proof (clamp_offset_nonneg (bridging_offset s) _ F).
  split; [rewrite guard_offset_spec; cbn; lia |].
  split; [apply guard_offset_spec |].
  destruct (replay s) as [[data | e] s'] eqn:R.
  2: { destruct (replay_raises _ _ _ R) as (E & S & _). auto. }
  unfold replay in R.
  rewrite (replay_with_closed_form STREAMING_LIMIT s eq_refl NS NE) in R.
  cbv zeta in R. fold n in R.
  destruct (chunk_time_of STREAMING_LIMIT n) as [ct |] eqn:C;
    [| discriminate].
  destruct (Py.is_zero ct) eqn:Z0.
  - injection R as _ <-. left. exists ct. auto.
  - destruct (chunks_from_ms_of _ _ _ _) as [k |]; [| discriminate].
    destruct (next_offset_of _ _ _ _) as [b |] eqn:B; [| discriminate].
    injection R as _ <-. right.
    destruct (next_offset_steps _ _ _ _ _ B)
      as (ct' & x & q & k' & y & C' & X & Q & K & Y & O).
    rewrite C in C'. injection C' as <-.
    exists ct, x, q, k', y. rewrite guard_offset_spec. cbn. auto 10.
Qed.

Lemma guard_offset_bounds_witness :
  0 <= bridging_offset (guard_offset (restarted 100 1000 9000)) <= 1000.
Proof.
  destruct (guard_offset_bounds (restarted 100 1000 9000)) as [H _].
  - cbn. lia.
  - reflexivity.
  - discriminate.
  - exact H.
Defined.

(** ** The division guard *)

Lemma getitem_raises {A : Type} (l : list A) (i : Z) (e : exn) :
  Py.getitem l i = Raise e -> e = IndexError.
Proof.
  unfold Py.getitem. destruct (_ <? 0); [congruence |].
  destruct (nth_error _ _); congruence.
Qed.

Lemma extend_from_raises {A : Type} (l : list A) (idx : list Z)
    (data : list A) (e : exn) :
  Py.extend_from l idx data = Raise e -> e = IndexError.
Proof.
  revert data. induction idx as [| i idx IH]; intros data; cbn.
  - discriminate.
  - destruct (Py.getitem l i) eqn:G; cbn.
    + apply IH.
    + intros H. injection H as <-. exact (getitem_raises _ _ _ G).
Qed.

Lemma integer_no_zero_division (f : Q -> Z) (x : Py.float) :
  Py.integer f x <> Raise ZeroDivisionError.
Proof.
  unfold Py.integer. destruct x; try discriminate;
    destruct (Py.exact _); discriminate.
Qed.

Lemma float_of_int_no_zero_division (z : Z) :
  Py.float_of_int z <> Raise ZeroDivisionError.
Proof.
  intros H. apply float_of_int_raises in H. discriminate H.
Qed.

Lemma replay_with_no_zero_division (limit : Z) (s : stream) :
  fst (replay_with limit s) <> Raise ZeroDivisionError.
Proof.
  unfold replay_with.
  destruct (new_stream s && negb (Nat.eqb (length (last_audio_input s)) 0))
    eqn:G; [| discriminate].
  apply andb_prop in G as [_ G]. apply negb_true_iff, Nat.eqb_neq in G.
  destruct (Py.int_truediv _ _) as [ct |] eqn:C.
  2: { cbn. apply int_truediv_raises in C; [| lia]. subst e. discriminate. }
  destruct (Py.is_zero ct) eqn:Z0; cbn [negb]; [discriminate |].
  destruct (Py.float_of_int _) as [x |] eqn:X; cbn [bind].
  2: { cbn. apply float_of_int_raises in X. subst e. discriminate. }
  unfold Py.truediv at 1. rewrite Z0. cbn [bind].
  destruct (Py.round (SpecFloat.SFdiv _ _ x ct)) as [k |] eqn:K.
  2: { cbn. intros H. injection H as ->.
       exact (integer_no_zero_division _ _ K). }
  destruct (Py.float_of_int (Z.of_nat _ - k)) as [y |] eqn:Y; cbn [bind].
  2: { cbn. apply float_of_int_raises in Y. subst e. discriminate. }
  destruct (Py.round (Py.mul y ct)) as [b |] eqn:B.
  2: { cbn. intros H. injection H as ->.
       exact (integer_no_zero_division _ _ B). }
  destruct (Py.extend_from _ _ _) eqn:E; cbn; [discriminate |].
  apply extend_from_raises in E. subst e. discriminate.
Qed.

(** C7.  When [last_audio_input] is empty, or the chunk duration
    [limit / len(last_audio_input)] is 0, the step selects no chunk and
    leaves the offsets alone; and for no limit and no stream does it raise
    [ZeroDivisionError]. *)
Theorem replay_division_guard (limit : Z) (s : stream) :
  last_audio_input s = [] \/
  (exists chunk_time,
      chunk_time_of limit (length (last_audio_input s)) = Ok chunk_time /\
      Py.is_zero chunk_time = true) ->
  replay_with limit s
  = (Ok [], if new_stream s && negb (Nat.eqb (length (last_audio_input s)) 0)
            then set_new_stream false s else s)
  /\ (forall limit' s',
         fst (replay_with limit' s') <> Raise ZeroDivisionError).
Proof.
  intros H. split; [| intros; apply replay_with_no_zero_division].
  unfold replay_with.
  destruct (new_stream s && negb (Nat.eqb (length (last_audio_input s)) 0))
    eqn:G; [| reflexivity].
  destruct H as [E | (ct & C & Z0)].
  { rewrite E in G. cbn in G. rewrite andb_false_r in G. discriminate G. }
  unfold chunk_time_of in C. rewrite C, Z0. reflexivity.
Qed.

Lemma replay_division_guard_witness :
  replay_with 0 (restarted 100 9400 0)
  = (Ok [], set_new_stream false (restarted 100 9400 0)).
Proof.
  destruct (replay_division_guard 0 (restarted 100 9400 0)) as [H _].
  - right. eexists. split; reflexivity.
  - exact H.
Defined.

(** ** What the generator leaves alone *)

Lemma generator_keeps_refl (s : stream) : generator_keeps s s.
Proof. unfold generator_keeps. tauto. Qed.

Lemma generator_keeps_trans (s1 s2 s3 : stream) :
  generator_keeps s1 s2 -> generator_keeps s2 s3 -> generator_keeps s1 s3.
Proof. unfold generator_keeps. intuition congruence. Qed.

Lemma replay_with_keeps (limit : Z) (s : stream) :
  generator_keeps s (snd (replay_with limit s)).
Proof.
  unfold replay_with.
  destruct (new_stream s && _); [| apply generator_keeps_refl].
  destruct (Py.int_truediv _ _) as [ct |]; [| apply generator_keeps_refl].
  destruct (negb _).
  2: { unfold generator_keeps. cbn. tauto. }
  rewrite guard_offset_spec.
  destruct (let* x := Py.float_of_int _ in _) as [k |].
  2: { unfold generator_keeps. cbn. tauto. }
  destruct (let* y := Py.float_of_int _ in _) as [b |].
  2: { unfold generator_keeps. cbn. tauto. }
  destruct (Py.extend_from _ _ _); unfold generator_keeps; cbn; tauto.
Qed.

Lemma drain_keeps (q data : list item) (s : stream) :
  generator_keeps s (stream_of (drain q data s)).
Proof.
  revert data s. induction q as [| [c |] q IH]; intros data s; cbn.
  - destruct (join data); cbn; unfold generator_keeps; cbn; tauto.
  - eapply generator_keeps_trans; [| apply IH].
    unfold generator_keeps. cbn. tauto.
  - unfold generator_keeps. cbn. tauto.
Qed.

Lemma fetch_keeps (data : list item) (s : stream) :
  generator_keeps s (stream_of (fetch data s)).
Proof.
  unfold fetch. destruct (get (_buff s)) as [[[c |] q'] |]; cbn.
  - eapply generator_keeps_trans; [| apply drain_keeps].
    unfold generator_keeps. cbn. tauto.
  - unfold generator_keeps. cbn. tauto.
  - apply generator_keeps_refl.
Qed.

Lemma generator_pass_keeps (s : stream) :
  generator_keeps s (stream_of (generator s)).
Proof.
  unfold generator. destruct (closed s); [apply generator_keeps_refl |].
  unfold replay.
  pose proof (replay_with_keeps STREAMING_LIMIT s) as R.
  destruct (replay_with STREAMING_LIMIT s) as [[data | e] s1]; cbn in R.
  - eapply generator_keeps_trans; [exact R |]. apply fetch_keeps.
  - exact R.
Qed.

Lemma settle_mic (st : step) (w : session) : mic (settle st w) = stream_of st.
Proof. destruct st; reflexivity. Qed.

Lemma next_keeps (w : session) : generator_keeps (mic w) (mic (next w)).
Proof.
  unfold next. destruct (audio_generator w); rewrite ?settle_mic.
  - apply generator_pass_keeps.
  - apply fetch_keeps.
  - apply generator_keeps_refl.
Qed.

(** ** What a request leaves alone *)

Section ListenFacts.

Variable translate_client : string -> translation.

(** What the loop body does, by what it keeps from the response. *)
Lemma handle_cases (response : Speech.response) (acc : transcripts)
    (s : stream) :
  match timed response with
  | Raise e => handle translate_client response acc s = Raise e
  | Ok None => handle translate_client response acc s = Ok (acc, s)
  | Ok (Some (result, time)) =>
      exists top,
        hd_error (Speech.alternatives result) = Some top /\
        let line :=
          entry (time - bridging_offset s
                 + STREAMING_LIMIT * restart_counter s)
            (translate_client (Speech.transcript top)) in
        handle translate_client response acc s
        = Ok (if Speech.is_final result
              then (mkTranscripts (all_transcripts acc)
                      (all_final_transcripts acc ++ [line]),
                    set_last_transcript_was_final true
                      (set_is_final_end_time time
                         (set_result_end_time time s)))
              else (mkTranscripts (all_transcripts acc ++ [line])
                      (all_final_transcripts acc),
                    set_last_transcript_was_final false
                      (set_result_end_time time s)))
  end.
Proof.
  unfold timed, kept_result, handle.
  destruct (Speech.results response) as [| result ?]; [reflexivity |].
  destruct (Speech.alternatives result) as [| top ?] eqn:A; [reflexivity |].
  destruct (end_time_ms result) as [time | e]; cbn [bind]; [| reflexivity].
  exists top. split; [rewrite A; reflexivity |].
  destruct (Speech.is_final result); reflexivity.
Qed.

Lemma handle_keeps (response : Speech.response) (acc acc' : transcripts)
    (s s' : stream) :
  handle translate_client response acc s = Ok (acc', s') ->
  request_keeps s s' /\ start_time s' = start_time s
  /\ bridging_offset s' = bridging_offset s.
Proof.
  pose proof (handle_cases response acc s) as H.
  destruct (timed response) as [[[result time] |] | e]; unfold request_keeps.
  - destruct H as (top & _ & ->).
    destruct (Speech.is_final result); intros E; injection E as <- <-;
      cbn; tauto.
  - rewrite H. intros E. injection E as <- <-. tauto.
  - rewrite H. discriminate.
Qed.

Lemma listen_keeps (evs : list event) (acc : transcripts) (w : session) :
  request_keeps (mic w) (mic (snd (listen translate_client evs acc w))).
Proof.
  revert acc w. induction evs as [| ev evs IH]; intros acc w.
  - cbn. unfold request_keeps. tauto.
  - destruct ev as [in_data | | now now' response | x]; cbn [listen].
    + specialize (IH acc (with_mic (_fill_buffer in_data) w)).
      unfold request_keeps in *. cbn in IH. exact IH.
    + specialize (IH acc (next w)).
      pose proof (next_keeps w) as K.
      unfold request_keeps, generator_keeps in *. intuition congruence.
    + destruct (_ >? STREAMING_LIMIT).
      * cbn. unfold request_keeps. cbn. tauto.
      * destruct (handle translate_client response acc (mic w))
          as [[acc' s'] | e] eqn:H.
        -- apply handle_keeps in H as (K & _).
           specialize (IH acc' (mkSession s' (audio_generator w) (requests w))).
           cbn in K, IH. unfold request_keeps in *. intuition congruence.
        -- cbn. unfold request_keeps. tauto.
    + cbn. unfold request_keeps. tauto.
Qed.

Lemma last_cons_default {A : Type} (x d : A) (l : list A) :
  last (x :: l) d = last l x.
Proof.
  assert (D : forall (l' : list A) (y d1 d2 : A),
             last (y :: l') d1 = last (y :: l') d2).
  { induction l' as [| z l' IH]; intros y d1 d2; [reflexivity |].
    change (last (z :: l') d1 = last (z :: l') d2). apply IH. }
  destruct l as [| y l]; [reflexivity |].
  change (last (y :: l) d = last (y :: l) x). apply D.
Qed.

Lemma listen_result_end_time (evs : list event) (acc : transcripts)
    (w : session) :
  result_end_time (mic (snd (listen translate_client evs acc w)))
  = last (map snd (processed (start_time (mic w)) evs))
      (result_end_time (mic w)).
Proof.
  revert acc w. induction evs as [| ev evs IH]; intros acc w.
  - reflexivity.
  - destruct ev as [in_data | | now now' response | x];
      cbn [listen processed].
    + rewrite IH. reflexivity.
    + rewrite IH.
      destruct (next_keeps w) as (_ & -> & _ & _ & -> & _). reflexivity.
    + destruct (_ >? STREAMING_LIMIT); [reflexivity |].
      pose proof (handle_cases response acc (mic w)) as H.
      destruct (timed response) as [[[result time] |] | e].
      * destruct H as (top & _ & ->).
        destruct (Speech.is_final result); rewrite IH; cbn [mic map snd];
          rewrite last_cons_default; reflexivity.
      * rewrite H, IH. reflexivity.
      * rewrite H. reflexivity.
    + reflexivity.
Qed.

Lemma listen_ending (evs : list event) (acc : transcripts) (w : session) :
  fst (fst (listen translate_client evs acc w))
  = ending (start_time (mic w)) evs.
Proof.
  revert acc w. induction evs as [| ev evs IH]; intros acc w.
  - reflexivity.
  - destruct ev as [in_data | | now now' response | x]; cbn [listen ending].
    + rewrite IH. reflexivity.
    + rewrite IH. destruct (next_keeps w) as (_ & -> & _). reflexivity.
    + destruct (_ >? STREAMING_LIMIT); [reflexivity |].
      pose proof (handle_cases response acc (mic w)) as H.
      destruct (timed response) as [[[result time] |] | e].
      * destruct H as (top & _ & ->).
        destruct (Speech.is_final result); rewrite IH; reflexivity.
      * rewrite H, IH. reflexivity.
      * rewrite H. reflexivity.
    + reflexivity.
Qed.

Lemma listen_print_loop_ending (evs : list event) (w : session) :
  fst (fst (listen_print_loop translate_client evs w))
  = ending (start_time (mic w)) evs.
Proof.
  unfold listen_print_loop.
  pose proof (listen_ending evs no_transcripts w) as E.
  destruct (listen translate_client evs no_transcripts w) as [[o acc] w'].
  cbn in E. subst o. destruct (ending _ _); reflexivity.
Qed.

Lemma listen_print_loop_keeps (evs : list event) (w : session) :
  request_keeps (mic w)
    (mic (snd (fst (listen_print_loop translate_client evs w)))).
Proof.
  unfold listen_print_loop.
  pose proof (listen_keeps evs no_transcripts w) as K.
  destruct (listen translate_client evs no_transcripts w) as [[o acc] w'].
  destruct o; exact K.
Qed.

End ListenFacts.

(** ** The restart bookkeeping of [main] *)

Section MainFacts.

Variable translate_client : string -> translation.

Lemma main_iteration_unfold (evs : list event) (s : stream) :
  snd (fst (main_iteration translate_client evs s))
  = match ending (start_time s) evs with
    | Returns => reset (mic (snd (fst (run_request translate_client evs s))))
    | Raised DeadlineExceeded | Raised (Other _) =>
        mic (snd (fst (run_request translate_client evs s)))
    | Raised KeyboardInterrupt =>
        __exit__ (mic (snd (fst (run_request translate_client evs s))))
    end.
Proof.
  unfold main_iteration, run_request.
  pose proof (listen_print_loop_ending translate_client evs (open_request s))
    as E.
  unfold open_request in *.
  destruct (listen_print_loop translate_client evs _) as [[o w] out].
  cbn in E. subst o. cbn [mic set_audio_input start_time].
  destruct (ending (start_time s) evs) as [| [| |]]; reflexivity.
Qed.

Lemma run_keeps (evs : list event) (s : stream) :
  request_keeps s (mic (snd (fst (run_request translate_client evs s)))).
Proof.
  unfold run_request.
  pose proof (listen_print_loop_keeps translate_client evs (open_request s))
    as K.
  unfold request_keeps in *. cbn in K. exact K.
Qed.

(** C3, amended.  [restart_counter] grows by exactly 1 over a pass of the
    loop of [main] whose call of [listen_print_loop] returns (the limit
    was passed, or the responses ended); a pass that ends by
    [DeadlineExceeded] or by [KeyboardInterrupt] leaves it as it was. *)
Theorem restart_counter_step (evs : list event) (s : stream) :
  restart_counter (snd (fst (main_iteration translate_client evs s)))
  = match ending (start_time s) evs with
    | Returns => restart_counter s + 1
    | Raised _ => restart_counter s
    end.
Proof.
  rewrite main_iteration_unfold.
  destruct (run_keeps evs s) as (_ & K & _).
  destruct (ending (start_time s) evs) as [| [| |]].
  - unfold reset. cbn. destruct (_ >? 0); cbn; rewrite K; reflexivity.
  - exact K.
  - cbn. exact K.
  - exact K.
Qed.

Lemma run_result_end_time (evs : list event) (s : stream) :
  result_end_time (mic (snd (fst (run_request translate_client evs s))))
  = last (map snd (processed (start_time s) evs)) (result_end_time s).
Proof.
  unfold run_request, listen_print_loop.
  pose proof (listen_result_end_time translate_client evs no_transcripts
                (open_request s)) as R.
  destruct (listen translate_client evs no_transcripts (open_request s))
    as [[o acc] w'].
  destruct o; exact R.
Qed.

(** C4, amended.  When [listen_print_loop] returns, the pass moves
    [audio_input] to [last_audio_input], empties [audio_input] and, if
    [result_end_time] is positive, copies [is_final_end_time] to
    [final_request_end_time]; [result_end_time] is then the end time of the
    last result processed in the request, or what it was before when none
    was.  When [DeadlineExceeded] ends the request, none of this happens:
    [last_audio_input] and [final_request_end_time] keep their values and
    the recorded [audio_input] stays where it is until the next pass
    empties it.  Nor does it happen when another exception ends the
    request. *)
Theorem session_end_rotation (evs : list event) (s : stream) :
  let s1 := mic (snd (fst (run_request translate_client evs s))) in
  let s' := snd (fst (main_iteration translate_client evs s)) in
  result_end_time s1
  = last (map snd (processed (start_time s) evs)) (result_end_time s)
  /\
  match ending (start_time s) evs with
  | Returns =>
      last_audio_input s' = audio_input s1 /\
      audio_input s' = [] /\
      final_request_end_time s'
      = (if result_end_time s1 >? 0 then is_final_end_time s1
         else final_request_end_time s) /\
      new_stream s' = true
  | Raised DeadlineExceeded =>
      s' = s1 /\
      last_audio_input s' = last_audio_input s /\
      final_request_end_time s' = final_request_end_time s /\
      audio_input (mic (open_request s')) = []
  | Raised KeyboardInterrupt =>
      last_audio_input s' = last_audio_input s /\
      final_request_end_time s' = final_request_end_time s /\
      closed s' = true
  | Raised (Other _) =>
      s' = s1 /\
      last_audio_input s' = last_audio_input s /\
      final_request_end_time s' = final_request_end_time s
  end.
Proof.
  intros s1 s'. split; [apply run_result_end_time |].
  subst s'. rewrite main_iteration_unfold. fold s1.
  destruct (run_keeps evs s) as (_ & _ & KL & KF). fold s1 in KL, KF.
  destruct (ending (start_time s) evs) as [| [| |]].
  - unfold reset. cbn.
    destruct (result_end_time s1 >? 0); cbn; repeat split; try reflexivity.
    exact KF.
  - repeat split; assumption.
  - cbn. repeat split; assumption.
  - repeat split; assumption.
Qed.

End MainFacts.

(** C3, as the claim states it, fails: a request that ends by
    [DeadlineExceeded] leaves [restart_counter] at 0. *)
Lemma deadline_keeps_counter :
  let s' := snd (fst (main_iteration echo
                        [Capture (chunk_no 1); Request; Raises DeadlineExceeded]
                        started)) in
  restart_counter started = 0 /\ restart_counter s' = 0 /\
  restart_counter s' <> restart_counter started + 1.
Proof. cbn. repeat split. discriminate. Qed.

(** C4, as the claim states it, fails: after a request that ends by
    [DeadlineExceeded] having recorded one chunk, [last_audio_input] is
    still empty and [audio_input] still holds the chunk. *)
Lemma deadline_skips_rotation :
  let s' := snd (fst (main_iteration echo
                        [Capture (chunk_no 1); Request; Raises DeadlineExceeded]
                        started)) in
  audio_input s' = [Some (chunk_no 1)] /\
  last_audio_input s' = [] /\
  ~ (last_audio_input s' = [Some (chunk_no 1)] /\ audio_input s' = []).
Proof. cbn. repeat split. intros [H _]. discriminate H. Qed.

(** ** The transcript lines *)

Section Lines.

Variable translate_client : string -> translation.

(** C6.  A response read within the limit whose first result has an
    alternative is given the time
    [result_end_time - bridging_offset + STREAMING_LIMIT * restart_counter],
    where [result_end_time] is the end time of that result in ms: the loop
    stores the latter in the stream and adds to one of its two lists the
    line that starts with the former.  When the end time cannot be
    computed, the exception leaves the loop and nothing is stored. *)
Theorem corrected_time_formula (evs : list event) (acc : transcripts)
    (w : session) (now now' : Z) (response : Speech.response)
    (result : Speech.result) (rest : list Speech.result)
    (top : Speech.alternative) (alts : list Speech.alternative) :
  now - start_time (mic w) <= STREAMING_LIMIT ->
  Speech.results response = result :: rest ->
  Speech.alternatives result = top :: alts ->
  match end_time_ms result with
  | Ok end_time =>
      let time := end_time - bridging_offset (mic w)
                  + STREAMING_LIMIT * restart_counter (mic w) in
      let line := entry time (translate_client (Speech.transcript top)) in
      exists s',
        listen translate_client (Response now now' response :: evs) acc w
        = listen translate_client evs
            (if Speech.is_final result
             then mkTranscripts (all_transcripts acc)
                    (all_final_transcripts acc ++ [line])
             else mkTranscripts (all_transcripts acc ++ [line])
                    (all_final_transcripts acc))
            (mkSession s' (audio_generator w) (requests w))
        /\ result_end_time s' = end_time
        /\ corrected_time s' = time
  | Raise e =>
      listen translate_client (Response now now' response :: evs) acc w
      = (Raised (Other e), acc, w)
  end.
Proof.
  intros T R A. cbn [listen].
  destruct (Z.gtb_spec (now - start_time (mic w)) STREAMING_LIMIT) as [G | _];
    [lia |].
  unfold handle. rewrite R, A.
  destruct (end_time_ms result) as [end_time | e]; cbn [bind];
    [| reflexivity].
  destruct (Speech.is_final result); eexists; (split; [reflexivity |]);
    split; reflexivity.
Qed.

Lemma stamped_processed (evs : list event) (w : session) :
  map fst (stamped translate_client evs w)
  = map fst (processed (start_time (mic w)) evs).
Proof.
  revert w. induction evs as [| ev evs IH]; intros w.
  - reflexivity.
  - destruct ev as [in_data | | now now' response | x];
      cbn [stamped processed].
    + apply (IH (with_mic (_fill_buffer in_data) w)).
    + rewrite IH. destruct (next_keeps w) as (_ & -> & _). reflexivity.
    + destruct (_ >? STREAMING_LIMIT); [reflexivity |].
      pose proof (handle_cases translate_client response no_transcripts
                    (mic w)) as H.
      destruct (timed response) as [[[result time] |] | e].
      * destruct H as (top & _ & ->).
        destruct (Speech.is_final result); cbn [map fst]; rewrite IH;
          reflexivity.
      * rewrite H, IH. reflexivity.
      * rewrite H. reflexivity.
    + reflexivity.
Qed.

Lemma filter_final_cons (result : Speech.result) (time : Z)
    (l : list (Speech.result * Z)) :
  filter is_final ((result, time) :: l)
  = if Speech.is_final result then (result, time) :: filter is_final l
    else filter is_final l.
Proof. reflexivity. Qed.

Lemma filter_interim_cons (result : Speech.result) (time : Z)
    (l : list (Speech.result * Z)) :
  filter (fun p => negb (is_final p)) ((result, time) :: l)
  = if negb (Speech.is_final result)
    then (result, time) :: filter (fun p => negb (is_final p)) l
    else filter (fun p => negb (is_final p)) l.
Proof. reflexivity. Qed.

Lemma listen_lines (evs : list event) (acc : transcripts) (w : session) :
  let acc' := snd (fst (listen translate_client evs acc w)) in
  let done := stamped translate_client evs w in
  exists finals interims,
    all_final_transcripts acc' = all_final_transcripts acc ++ finals /\
    all_transcripts acc' = all_transcripts acc ++ interims /\
    Forall2 (line_of translate_client) finals (filter is_final done) /\
    Forall2 (line_of translate_client) interims
      (filter (fun p => negb (is_final p)) done).
Proof.
  revert acc w. induction evs as [| ev evs IH]; intros acc w.
  - exists [], []. cbn. rewrite !app_nil_r. repeat split; constructor.
  - destruct ev as [in_data | | now now' response | x];
      cbn [listen stamped].
    + apply (IH acc (with_mic (_fill_buffer in_data) w)).
    + apply (IH acc (next w)).
    + destruct (_ >? STREAMING_LIMIT).
      { exists [], []. cbn. rewrite !app_nil_r. repeat split; constructor. }
      pose proof (handle_cases translate_client response acc (mic w)) as H.
      pose proof (handle_cases translate_client response no_transcripts
                    (mic w)) as H0.
      destruct (timed response) as [[[result time] |] | e].
      * destruct H as (top & A & H). destruct H0 as (top0 & _ & H0).
        cbv zeta in H, H0. rewrite H, H0.
        set (line := entry _ (translate_client (Speech.transcript top))).
        assert (L : line_of translate_client line
                      (result,
                       time - bridging_offset (mic w)
                       + STREAMING_LIMIT * restart_counter (mic w))).
        { exists top. split; [exact A | reflexivity]. }
        destruct (Speech.is_final result) eqn:FR.
        -- destruct (IH (mkTranscripts (all_transcripts acc)
                           (all_final_transcripts acc ++ [line]))
                       (mkSession
                          (set_last_transcript_was_final true
                             (set_is_final_end_time time
                                (set_result_end_time time (mic w))))
                          (audio_generator w) (requests w)))
             as (finals & interims & F & I & FF & FI).
           exists (line :: finals), interims. cbn in F, I.
           rewrite F, I, <- app_assoc, filter_final_cons,
             filter_interim_cons, FR.
           cbn [negb]. repeat split; auto.
        -- destruct (IH (mkTranscripts (all_transcripts acc ++ [line])
                           (all_final_transcripts acc))
                       (mkSession
                          (set_last_transcript_was_final false
                             (set_result_end_time time (mic w)))
                          (audio_generator w) (requests w)))
             as (finals & interims & F & I & FF & FI).
           exists finals, (line :: interims). cbn in F, I.
           rewrite F, I, <- app_assoc, filter_final_cons,
             filter_interim_cons, FR.
           cbn [negb]. repeat split; auto.
      * rewrite H, H0.
        apply (IH acc (mkSession (mic w) (audio_generator w) (requests w))).
      * rewrite H, H0.
        exists [], []. cbn. rewrite !app_nil_r. repeat split; constructor.
    + exists [], []. cbn. rewrite !app_nil_r. repeat split; constructor.
Qed.

(** C9, amended.  Each processed result adds exactly one line, in the order
    received, to [all_final_transcripts] if it is final and to
    [all_transcripts] otherwise: the entry of the translation of its first
    alternative at the time [end time - bridging_offset + STREAMING_LIMIT *
    restart_counter], with the offset as it is when the response is read.
    When the loop returns, the call writes only the last final line, or,
    without any, the last other line, after its colour; it writes nothing
    when an exception ends it. *)
Theorem one_line_per_result_last_written (evs : list event) (w : session) :
  let done := stamped translate_client evs w in
  map fst done = map fst (processed (start_time (mic w)) evs) /\
  exists finals interims,
    snd (fst (listen translate_client evs no_transcripts w))
    = mkTranscripts interims finals /\
    Forall2 (line_of translate_client) finals (filter is_final done) /\
    Forall2 (line_of translate_client) interims
      (filter (fun p => negb (is_final p)) done) /\
    (length finals + length interims = length done)%nat /\
    snd (listen_print_loop translate_client evs w)
    = match ending (start_time (mic w)) evs with
      | Raised _ => []
      | Returns =>
          match finals, interims with
          | _ :: _, _ => [GREEN; last finals ""%string]
          | [], _ :: _ => [RED; last interims ""%string]
          | [], [] => []
          end
      end.
Proof.
  intros done. split; [apply stamped_processed |].
  destruct (listen_lines evs no_transcripts w)
    as (finals & interims & F & I & FF & FI).
  fold done in FF, FI. exists finals, interims.
  pose proof (listen_ending translate_client evs no_transcripts w) as E.
  unfold listen_print_loop.
  destruct (listen translate_client evs no_transcripts w) as [[o acc] w'].
  cbn [fst snd] in *. subst o. destruct acc as [tr fi]. cbn in F, I. subst.
  repeat split; try assumption.
  - apply Forall2_length in FF, FI. rewrite FF, FI.
    clear. induction done as [| r done IH]; [reflexivity |].
    cbn. destruct (is_final r); cbn; lia.
  - destruct (ending _ _); [| reflexivity].
    unfold report. cbn. destruct finals; [destruct interims |]; reflexivity.
Qed.

End Lines.

Lemma corrected_time_formula_witness :
  fst (listen echo [Response 100 100 (heard "a" true 9 400000000)]
         no_transcripts (mkSession (restarted 3 0 600) Suspended []))
  = (Returns, mkTranscripts [] [entry (9400 - 600 + 10000 * 1) (echo "a")]).
Proof.
  pose proof (corrected_time_formula echo [] no_transcripts
                (mkSession (restarted 3 0 600) Suspended []) 100 100
                (heard "a" true 9 400000000) _ _ _ _
                ltac:(vm_compute; discriminate) eq_refl eq_refl) as H.
  assert (E : end_time_ms
                (Speech.mkResult [Speech.mkAlternative "a"] true
                   (Speech.mkDuration 9 400000000)) = Ok 9400)
    by (vm_compute; reflexivity).
  rewrite E in H. destruct H as (s' & H & _).
  rewrite H. reflexivity.
Defined.

(** C9, as the claim states it, fails: two results are processed, and a
    single line reaches the output. *)
Lemma two_results_one_line :
  map snd (processed 0 two_interim) = [1000; 2500] /\
  snd (listen_print_loop echo two_interim (open_request started))
  = [RED; entry 2500 (echo "b")] /\
  snd (fst (listen echo two_interim no_transcripts (open_request started)))
  = mkTranscripts [entry 1000 (echo "a"); entry 2500 (echo "b")] [].
Proof. vm_compute. repeat split. Qed.

(** ** The queue and the close signal *)

Lemma puts_app (xs q : list item) : puts xs q = q ++ xs.
Proof.
  revert q. induction xs as [| x xs IH]; intros q; cbn.
  - rewrite app_nil_r. reflexivity.
  - rewrite IH. unfold put. rewrite <- app_assoc. reflexivity.
Qed.

Lemma gets_app (xs rest : list item) :
  gets (length xs) (xs ++ rest) = Some (xs, rest).
Proof.
  induction xs as [| x xs IH]; cbn; [reflexivity |].
  rewrite IH. reflexivity.
Qed.

(** C8, as the claim states it, fails: once the close signal has been
    read, the queue is empty and the next [get()] blocks instead of
    returning the close signal again. *)
Lemma close_signal_read_once :
  get (put None []) = Some (None, []) /\
  get [] = None /\
  ~ (exists q, get [] = Some (None, q)).
Proof.
  repeat split. intros [q H]. discriminate H.
Qed.

(** C8, amended.  The close signal is an item of the queue like the
    chunks: the chunks put before it are read before it, in the order they
    were put and without loss, the close signal is then read once, and
    after it come the items put later, if any; a [get()] on the queue so
    emptied blocks.  What stays is the flag: a pass of the generator that
    starts once [closed] is set returns without reading the queue. *)
Theorem close_signal_fifo (cs : list bytes) (later : list item) (s : stream) :
  let q := puts later (put None (puts (map Some cs) [])) in
  gets (length cs) q = Some (map Some cs, None :: later) /\
  gets (S (length cs)) q = Some (map Some cs ++ [None], later) /\
  gets (S (length cs) + length later) q
  = Some (map Some cs ++ None :: later, []) /\
  get [] = None /\
  generator (set_closed true s) = Return (set_closed true s).
Proof.
  intros q. subst q. unfold put. rewrite !puts_app. cbn [app].
  repeat split.
  - rewrite <- app_assoc. cbn [app].
    rewrite <- (length_map Some cs) at 1. apply gets_app.
  - replace (S (length cs)) with (length (map Some cs ++ [None]))
      by (rewrite length_app, length_map; unfold item, bytes; cbn; lia).
    apply gets_app.
  - replace (S (length cs) + length later)%nat
      with (length ((map Some cs ++ [None]) ++ later))
      by (rewrite !length_app, length_map; unfold item, bytes; cbn; lia).
    pose proof (gets_app ((map Some cs ++ [None]) ++ later) []) as G.
    rewrite app_nil_r in G. etransitivity; [exact G |].
    rewrite <- app_assoc. reflexivity.
Qed.

(** ** The close signal in [audio_input] *)

Lemma drain_until_close (cs : list bytes) (rest data : list item)
    (s : stream) :
  drain (map Some cs ++ None :: rest) data s
  = Return (set_buff rest
              (set_audio_input (audio_input s ++ map Some cs) s)).
Proof.
  revert data s. induction cs as [| c cs IH]; intros data s; cbn.
  - rewrite app_nil_r. destruct s; reflexivity.
  - rewrite IH. cbn. rewrite <- app_assoc. reflexivity.
Qed.

(** C10, as the claim states it, fails: a generator that waits in [get()]
    while a chunk and then the close signal are put reads the close signal
    in its inner loop and returns with the chunk, not the close signal, at
    the end of [audio_input]. *)
Lemma close_signal_not_recorded :
  let s := __exit__ (_fill_buffer (chunk_no 1) started) in
  generator started = Blocked [] started /\
  _buff s = [Some (chunk_no 1); None] /\
  fetch [] s = Return (set_audio_input [Some (chunk_no 1)] (set_buff [] s)) /\
  last (audio_input (stream_of (fetch [] s))) None = Some (chunk_no 1) /\
  last (audio_input (stream_of (fetch [] s))) None <> None.
Proof. cbn. repeat split. discriminate. Qed.

(** C10, amended.  When the blocking [get()] of a pass returns the close
    signal, the generator appends it to [audio_input] and returns, so that
    the close signal is the last element of [audio_input]; when the close
    signal is read by the inner loop, after the chunks [c :: cs] of the
    same pass, the generator returns with those chunks appended and
    without the close signal. *)
Theorem close_signal_in_audio_input (data rest : list item) (s : stream)
    (c : bytes) (cs : list bytes) :
  fetch data (set_buff (None :: rest) s)
  = Return (set_audio_input (audio_input s ++ [None]) (set_buff rest s)) /\
  last (audio_input
          (stream_of (fetch data (set_buff (None :: rest) s)))) (Some [])
  = None /\
  fetch data (set_buff (map Some (c :: cs) ++ None :: rest) s)
  = Return (set_audio_input (audio_input s ++ map Some (c :: cs))
              (set_buff rest s)) /\
  last (audio_input
          (stream_of
             (fetch data (set_buff (map Some (c :: cs) ++ None :: rest) s))))
    None
  = Some (last cs c).
Proof.
  assert (F : fetch data (set_buff (map Some (c :: cs) ++ None :: rest) s)
              = Return (set_audio_input (audio_input s ++ map Some (c :: cs))
                          (set_buff rest s))).
  { unfold fetch. cbn. rewrite drain_until_close. cbn.
    rewrite <- app_assoc. reflexivity. }
  repeat split.
  - cbn. apply last_last.
  - exact F.
  - rewrite F. cbn [stream_of audio_input set_audio_input].
    change (Some c :: map Some cs) with (map Some (c :: cs)).
    replace (last cs c) with (last (c :: cs) c) by (destruct cs; reflexivity).
    rewrite (app_removelast_last (l := c :: cs) c) at 1 by discriminate.
    rewrite map_app, app_assoc. apply last_last.
Qed.

(** The chunks gathered by the pass that meets the close signal in its
    inner loop are recorded in [audio_input] and never yielded. *)
Lemma chunk_read_with_close_not_yielded :
  let w := mkSession (__exit__ (_fill_buffer (chunk_no 1) started))
             (Waiting []) [] in
  requests (next w) = [] /\
  audio_generator (next w) = Finished /\
  audio_input (mic (next w)) = [Some (chunk_no 1)].
Proof. repeat split. Qed.

(** ** Two requests in a row *)

(** After [first_request] the stream is in the state of scenario A; the
    first audio content of [second_request] is then the chunks 94 to 99
    followed by the new chunk, and the final result of the new request is
    printed at [1000 - 600 + 10000 * 1]. *)
Lemma replay_reaches_the_next_request :
  let s1 := snd (fst (main_iteration echo first_request started)) in
  let r := run_request echo second_request s1 in
  restart_counter s1 = 1 /\
  final_request_end_time s1 = 9400 /\
  length (last_audio_input s1) = 100%nat /\
  requests (snd (fst r))
  = [flat_map chunk_no [94; 95; 96; 97; 98; 99; 100]%nat] /\
  bridging_offset (mic (snd (fst r))) = 600 /\
  snd r = [GREEN; entry 10400 (echo "c")].
Proof. vm_compute. repeat split. Qed.

(** ** Joining chunks *)

Lemma join_chunks (cs : list bytes) : join (map Some cs) = Ok (concat cs).
Proof.
  induction cs as [| c cs IH]; [reflexivity |].
  cbn. rewrite IH. reflexivity.
Qed.

Lemma chunks_of_items (l : list item) :
  Forall is_chunk l -> exists cs, l = map Some cs.
Proof.
  induction 1 as [| x l X _ [cs ->]].
  - exists []. reflexivity.
  - destruct x as [c |]; [| contradiction X; reflexivity].
    exists (c :: cs). reflexivity.
Qed.

Lemma items_of_chunks (cs : list bytes) : Forall is_chunk (map Some cs).
Proof.
  induction cs; constructor; [discriminate | assumption].
Qed.

Lemma chunk_bytes_chunks (cs : list bytes) :
  chunk_bytes (map Some cs) = concat cs.
Proof.
  unfold chunk_bytes. induction cs as [| c cs IH]; [reflexivity |].
  cbn. rewrite IH. reflexivity.
Qed.

(** ** A pass that yields *)

Lemma drain_chunks (cs : list bytes) (data : list item) (s : stream) :
  drain (map Some cs) data s
  = match join (data ++ map Some cs) with
    | Ok content =>
        Yield content
          (set_buff [] (set_audio_input (audio_input s ++ map Some cs) s))
    | Raise e =>
        Failed e
          (set_buff [] (set_audio_input (audio_input s ++ map Some cs) s))
    end.
Proof.
  revert data s. induction cs as [| c cs IH]; intros data s; cbn [map drain].
  - rewrite !app_nil_r. destruct s; reflexivity.
  - rewrite IH. cbn [audio_input set_audio_input].
    rewrite <- !app_assoc. cbn [app].
    destruct (join _); destruct s; reflexivity.
Qed.

Lemma join_app_chunks (ds : list bytes) (data : list item) :
  join (map Some ds ++ data)
  = match join data with
    | Ok r => Ok (concat ds ++ r)
    | Raise e => Raise e
    end.
Proof.
  induction ds as [| d ds IH]; cbn.
  - destruct (join data); reflexivity.
  - rewrite IH. destruct (join data); cbn; [| reflexivity].
    rewrite app_assoc. reflexivity.
Qed.

Lemma fetch_on_chunks (ds cs : list bytes) (s : stream) :
  fetch (map Some ds) (set_buff (map Some cs) s)
  = match cs with
    | [] => Blocked (map Some ds) (set_buff [] s)
    | _ :: _ =>
        Yield (concat ds ++ concat cs)
          (set_audio_input (audio_input s ++ map Some cs) (set_buff [] s))
    end.
Proof.
  destruct cs as [| c cs]; [reflexivity |].
  unfold fetch. cbn [_buff set_buff map get].
  rewrite drain_chunks.
  rewrite <- app_assoc. cbn [app].
  rewrite join_app_chunks.
  change (Some c :: map Some cs) with (map Some (c :: cs)).
  rewrite join_chunks. cbn [concat audio_input set_audio_input map].
  rewrite <- app_assoc. destruct s; reflexivity.
Qed.

(** X2.  A pass that reaches [get()] with an empty queue waits and keeps
    the chunks it has selected for replay; a pass that finds only chunks in
    the queue, at least one, takes them all: it yields the bytes of the
    replayed chunks followed by the bytes of every queued chunk, in order,
    appends these chunks to [audio_input] and leaves the queue empty. *)
Theorem fetch_yields_everything (ds : list bytes) (c : bytes)
    (cs : list bytes) (s : stream) :
  fetch (map Some ds) (set_buff [] s) = Blocked (map Some ds) (set_buff [] s)
  /\
  fetch (map Some ds) (set_buff (map Some (c :: cs)) s)
  = Yield (concat ds ++ c ++ concat cs)
      (set_audio_input (audio_input s ++ map Some (c :: cs))
         (set_buff [] s)).
Proof.
  split.
  - apply (fetch_on_chunks ds [] s).
  - apply (fetch_on_chunks ds (c :: cs) s).
Qed.

(** ** The replay happens once *)

Lemma replay_with_frame (limit : Z) (s : stream) :
  let s' := snd (replay_with limit s) in
  _buff s' = _buff s /\ audio_input s' = audio_input s /\
  closed s' = closed s /\ last_audio_input s' = last_audio_input s.
Proof.
  unfold replay_with.
  destruct (new_stream s && _); [| cbn; auto].
  destruct (Py.int_truediv _ _) as [ct |]; [| cbn; auto].
  destruct (negb _); [| cbn; auto].
  rewrite guard_offset_spec.
  destruct (let* x := Py.float_of_int _ in _) as [k |]; [| cbn; auto].
  destruct (let* y := Py.float_of_int _ in _) as [b |]; [| cbn; auto].
  destruct (Py.extend_from _ _ _); cbn; auto.
Qed.

Lemma replay_skipped (s : stream) :
  new_stream s = false \/ last_audio_input s = [] -> replay s = (Ok [], s).
Proof.
  unfold replay, replay_with. intros [-> | ->]; [reflexivity |].
  cbn. rewrite andb_false_r. reflexivity.
Qed.

Lemma replay_ok (s s' : stream) (data : list item) :
  replay s = (Ok data, s') ->
  (exists k, data = skipn k (last_audio_input s)) /\
  (new_stream s' = false \/ last_audio_input s' = []).
Proof.
  destruct (new_stream s) eqn:NS.
  2: { rewrite replay_skipped by auto. intros H. injection H as <- <-.
       split; [| auto]. exists (length (last_audio_input s)).
       rewrite skipn_all. reflexivity. }
  destruct (last_audio_input s) as [| x l] eqn:LA.
  { rewrite replay_skipped by auto. intros H. injection H as <- <-.
    split; [| auto]. exists 0%nat. reflexivity. }
  assert (NE : last_audio_input s <> []) by (rewrite LA; discriminate).
  unfold replay.
  rewrite (replay_with_closed_form STREAMING_LIMIT s eq_refl NS NE).
  cbv zeta. rewrite <- LA.
  destruct (chunk_time_of _ _) as [ct |]; [| discriminate].
  destruct (Py.is_zero ct).
  - intros H. injection H as <- <-. split; [| auto].
    exists (length (last_audio_input s)). rewrite skipn_all. reflexivity.
  - destruct (chunks_from_ms_of _ _ _ _) as [k |]; [| discriminate].
    destruct (next_offset_of _ _ _ _) as [b |]; [| discriminate].
    intros H. injection H as <- <-. split; [| auto].
    exists (Z.to_nat k). reflexivity.
Qed.

(** The replay raises [OverflowError] on a stream whose final point no
    binary64 number can hold. *)
Lemma replay_overflow :
  replay (restarted 1 (2 ^ 1024) 0)
  = (Raise OverflowError, restarted 1 (2 ^ 1024) 0).
Proof. vm_compute. reflexivity. Qed.

(** X3.  Whatever the stream, the replay of a pass puts in [data] a suffix
    of [last_audio_input], and a second replay on the stream it leaves
    selects nothing and changes nothing: the audio of the last request is
    resent at most once.  The only exception it can raise is the
    [OverflowError] of a number that binary64 cannot hold; the stream is
    then as it was, or with the guarded offset stored. *)
Theorem replay_once (s : stream) :
  match replay s with
  | (Ok data, s') =>
      (exists k, data = skipn k (last_audio_input s)) /\
      replay s' = (Ok [], s')
  | (Raise e, s') => e = OverflowError /\ (s' = s \/ s' = guard_offset s)
  end.
Proof.
  destruct (replay s) as [[data | e] s'] eqn:R.
  - destruct (replay_ok _ _ _ R) as [K N]. split; [exact K |].
    apply replay_skipped. exact N.
  - destruct (replay_raises _ _ _ R) as (E & S & _). auto.
Qed.

(** ** What a pass does to the queue and to the recorded audio *)

Lemma replay_with_set_buff (limit : Z) (q : list item) (s : stream) :
  replay_with limit (set_buff q s)
  = (fst (replay_with limit s), set_buff q (snd (replay_with limit s))).
Proof.
  destruct s as [b c t rc a la re fe fr bo lf ns].
  unfold replay_with. rewrite !guard_offset_spec.
  cbn [new_stream last_audio_input final_request_end_time bridging_offset
       set_buff set_bridging_offset].
  destruct (ns && _); [| reflexivity].
  destruct (Py.int_truediv _ _) as [ct |]; [| reflexivity].
  destruct (negb _); [| reflexivity].
  destruct (let* x := Py.float_of_int _ in _) as [k |]; [| reflexivity].
  destruct (let* y := Py.float_of_int _ in _) as [y |]; [| reflexivity].
  destruct (Py.extend_from _ _ _); reflexivity.
Qed.

Lemma set_buff_self (s : stream) : set_buff (_buff s) s = s.
Proof. destruct s; reflexivity. Qed.

Lemma fetch_clean (data : list item) (s : stream) :
  Forall is_chunk data -> Forall is_chunk (_buff s) ->
  (_buff s = [] /\ fetch data s = Blocked data s)
  \/
  (_buff s <> [] /\
   fetch data s
   = Yield (chunk_bytes data ++ chunk_bytes (_buff s))
       (set_audio_input (audio_input s ++ _buff s) (set_buff [] s))).
Proof.
  intros D B.
  destruct (chunks_of_items _ D) as [ds ->].
  destruct (chunks_of_items _ B) as [cs E].
  destruct s as [b c t rc a la re fe fr bo lf ns]. cbn [_buff] in *. subst b.
  pose proof (fetch_on_chunks ds cs
                (mkStream [] c t rc a la re fe fr bo lf ns)) as F.
  unfold set_buff in F. cbn in F. rewrite !chunk_bytes_chunks.
  destruct cs as [| x cs].
  - left. split; [reflexivity | exact F].
  - right. split; [discriminate | exact F].
Qed.

(** A pass on an open stream without close signal. *)
Lemma replay_clean (s : stream) :
  clean s ->
  clean (snd (replay s)) /\
  _buff (snd (replay s)) = _buff s /\
  audio_input (snd (replay s)) = audio_input s /\
  forall data, fst (replay s) = Ok data -> Forall is_chunk data.
Proof.
  intros (C & B & A & L).
  destruct (replay_with_frame STREAMING_LIMIT s) as (B1 & A1 & C1 & L1).
  fold (replay s) in B1, A1, C1, L1.
  unfold clean. rewrite B1, A1, C1, L1. repeat split; auto.
  intros data R.
  destruct (replay s) as [r s'] eqn:RS. cbn in R. subst r.
  destruct (replay_ok _ _ _ RS) as [[k ->] _].
  apply Forall_forall. intros x I.
  rewrite Forall_forall in L. apply L.
  rewrite <- (firstn_skipn k). apply in_or_app. right. exact I.
Qed.

(** ** Nothing captured is lost during a request *)

Lemma fetch_conserves (data : list item) (s : stream) :
  Forall is_chunk (_buff s) ->
  let s1 := stream_of (fetch data s) in
  audio_input s1 ++ _buff s1 = audio_input s ++ _buff s /\
  Forall is_chunk (_buff s1).
Proof.
  intros B. destruct (chunks_of_items _ B) as [cs E].
  unfold fetch. rewrite E.
  destruct cs as [| c cs]; cbn [map get].
  - cbn. rewrite E. split; [reflexivity | constructor].
  - rewrite drain_chunks.
    destruct (join _); cbn; rewrite app_nil_r, <- app_assoc;
      (split; [reflexivity | constructor]).
Qed.

Lemma generator_conserves (s : stream) :
  Forall is_chunk (_buff s) ->
  let s1 := stream_of (generator s) in
  audio_input s1 ++ _buff s1 = audio_input s ++ _buff s /\
  Forall is_chunk (_buff s1).
Proof.
  intros B. unfold generator.
  destruct (closed s); [cbn; auto |].
  destruct (replay_with_frame STREAMING_LIMIT s) as (B' & A' & _).
  fold (replay s) in B', A'.
  destruct (replay s) as [[data | e] s']; cbn [snd] in B', A'.
  - rewrite <- B', <- A'. apply fetch_conserves. rewrite B'. exact B.
  - cbn. rewrite B', A'. auto.
Qed.

Lemma next_conserves (w : session) :
  Forall is_chunk (_buff (mic w)) ->
  audio_input (mic (next w)) ++ _buff (mic (next w))
  = audio_input (mic w) ++ _buff (mic w) /\
  Forall is_chunk (_buff (mic (next w))).
Proof.
  intros B. unfold next. destruct (audio_generator w); rewrite ?settle_mic.
  - apply generator_conserves. exact B.
  - apply fetch_conserves. exact B.
  - auto.
Qed.

Section Conservation.

Variable translate_client : string -> translation.

Lemma handle_audio (response : Speech.response) (acc acc' : transcripts)
    (s s' : stream) :
  handle translate_client response acc s = Ok (acc', s') ->
  _buff s' = _buff s /\ audio_input s' = audio_input s /\
  new_stream s' = new_stream s.
Proof.
  pose proof (handle_cases translate_client response acc s) as H.
  destruct (timed response) as [[[result time] |] | e].
  - destruct H as (top & _ & ->).
    destruct (Speech.is_final result); intros E; injection E as <- <-;
      cbn; tauto.
  - rewrite H. intros E. injection E as <- <-. tauto.
  - rewrite H. discriminate.
Qed.

Lemma handle_timed (response : Speech.response) (acc : transcripts)
    (s : stream) :
  match timed response with
  | Raise e => handle translate_client response acc s = Raise e
  | Ok _ => exists acc' s',
      handle translate_client response acc s = Ok (acc', s')
  end.
Proof.
  pose proof (handle_cases translate_client response acc s) as H.
  destruct (timed response) as [[[result time] |] | e].
  - destruct H as (top & _ & ->).
    destruct (Speech.is_final result); eexists; eexists; reflexivity.
  - rewrite H. eexists. eexists. reflexivity.
  - exact H.
Qed.

Lemma listen_conserves (evs : list event) (acc : transcripts) (w : session) :
  Forall is_chunk (_buff (mic w)) ->
  let s1 := mic (snd (listen translate_client evs acc w)) in
  audio_input s1 ++ _buff s1
  = audio_input (mic w) ++ _buff (mic w)
    ++ map Some (captured (start_time (mic w)) evs) /\
  Forall is_chunk (_buff s1).
Proof.
  revert acc w. induction evs as [| ev evs IH]; intros acc w B.
  - cbn. rewrite app_nil_r. auto.
  - destruct ev as [in_data | | now now' response | x];
      cbn [listen captured].
    + specialize (IH acc (with_mic (_fill_buffer in_data) w)).
      cbn [mic with_mic _fill_buffer _buff set_buff audio_input start_time]
        in IH.
      destruct IH as [E F].
      { unfold put. apply Forall_app. split; [exact B |].
        constructor; [discriminate | constructor]. }
      split; [| exact F]. rewrite E. unfold put.
      rewrite <- !app_assoc. reflexivity.
    + destruct (next_conserves w B) as [E F].
      destruct (next_keeps w) as (_ & S & _).
      destruct (IH acc (next w) F) as [E' F'].
      split; [| exact F']. rewrite E', S, app_assoc, E, <- app_assoc.
      reflexivity.
    + destruct (_ >? STREAMING_LIMIT).
      { cbn. rewrite app_nil_r. auto. }
      pose proof (handle_timed response acc (mic w)) as H.
      destruct (timed response) as [kept | e].
      * destruct H as (acc' & s' & H). rewrite H.
        destruct (handle_audio _ _ _ _ _ H) as (HB & HA & _).
        destruct (handle_keeps translate_client _ _ _ _ _ H) as (_ & HS & _).
        specialize (IH acc' (mkSession s' (audio_generator w) (requests w))).
        cbn [mic] in IH. rewrite HB, HA, HS in IH. apply IH. exact B.
      * rewrite H. cbn. rewrite app_nil_r. auto.
    + cbn. rewrite app_nil_r. auto.
Qed.

(** X5.  During a request no chunk is lost, duplicated or reordered on its
    way from the queue to [audio_input]: when [listen_print_loop] ends on a
    queue that held only chunks, [audio_input] followed by the queue is the
    queue at the start of the request followed by the chunks captured
    since, whatever the order in which the callback and the generator
    ran. *)
Theorem captured_audio_conserved (evs : list event) (s : stream) :
  Forall is_chunk (_buff s) ->
  let s1 := mic (snd (fst (run_request translate_client evs s))) in
  audio_input s1 ++ _buff s1
  = _buff s ++ map Some (captured (start_time s) evs).
Proof.
  intros B s1. subst s1. unfold run_request, listen_print_loop.
  pose proof (listen_conserves evs no_transcripts (open_request s) B)
    as [E _].
  destruct (listen translate_client evs no_transcripts (open_request s))
    as [[o acc] w'].
  destruct o; exact E.
Qed.

End Conservation.


(** ** An open stream without close signal *)

Lemma fetch_tidy (data : list item) (s : stream) (w : session) :
  clean s -> Forall is_chunk data -> tidy (settle (fetch data s) w).
Proof.
  intros (C & B & A & L) D.
  destruct (fetch_clean data s D B) as [[E F] | [E F]]; rewrite F.
  - unfold tidy, clean. cbn. repeat split; auto.
  - unfold tidy, clean. cbn. repeat split; auto.
    apply Forall_app. split; assumption.
Qed.

Lemma next_tidy (w : session) : tidy w -> tidy (next w).
Proof.
  intros (C & H). unfold next.
  destruct (audio_generator w) as [| data |] eqn:G.
  - unfold generator. pose proof C as (-> & _).
    destruct (replay_clean (mic w) C) as (C1 & _ & _ & D).
    destruct (replay (mic w)) as [[data | e] s1]; cbn [fst snd] in *.
    + apply fetch_tidy; [exact C1 | apply D; reflexivity].
    + unfold tidy. cbn. split; [exact C1 | constructor].
  - apply fetch_tidy; assumption.
  - unfold tidy. rewrite G. split; [exact C | constructor].
Qed.

(** X6.  On an open stream that holds no close signal a pass of the
    generator does not end unless the replay raises, and the replay can
    raise only the [OverflowError] of a number that binary64 cannot hold.
    When the queue is empty the pass waits in [get()] with the chunks
    selected by the replay; otherwise it yields the bytes of those chunks
    followed by the bytes of the whole queue and moves the queue to the end
    of [audio_input].  In every case it leaves a stream that is again open
    and without close signal. *)
Theorem clean_pass_waits_or_yields (s : stream) :
  clean s ->
  match replay s with
  | (Ok data, s1) =>
      match _buff s with
      | [] => generator s = Blocked data s1
      | _ :: _ =>
          generator s
          = Yield (chunk_bytes data ++ chunk_bytes (_buff s))
              (set_audio_input (audio_input s ++ _buff s) (set_buff [] s1))
      end
  | (Raise e, s1) => e = OverflowError /\ generator s = Failed e s1
  end /\
  clean (stream_of (generator s)).
Proof.
  intros C.
  destruct (replay_clean s C) as (C1 & B1 & A1 & D).
  pose proof C as (Cc & _). unfold generator. rewrite Cc.
  destruct (replay s) as [[data | e] s1] eqn:R; cbn [fst snd] in *.
  - specialize (D data eq_refl).
    pose proof C1 as (Cc1 & Cb & Ca & Cl).
    rewrite <- B1, <- A1.
    destruct (fetch_clean data s1 D Cb) as [[E F] | [E F]]; rewrite F.
    + rewrite E. split; [reflexivity | exact C1].
    + split.
      * destruct (_buff s1); [congruence | reflexivity].
      * unfold clean. cbn. repeat split; auto. apply Forall_app. auto.
  - destruct (replay_raises _ _ _ R) as (E & _). auto.
Qed.

Section CleanRequests.

Variable translate_client : string -> translation.

Lemma listen_tidy (evs : list event) (acc : transcripts) (w : session) :
  tidy w -> tidy (snd (listen translate_client evs acc w)).
Proof.
  revert acc w. induction evs as [| ev evs IH]; intros acc w T.
  - exact T.
  - destruct ev as [in_data | | now now' response | x]; cbn [listen].
    + apply IH. destruct T as ((C & B & A & L) & H).
      unfold tidy, clean. cbn. repeat split; auto.
      unfold put. apply Forall_app. split; [exact B |].
      constructor; [discriminate | constructor].
    + apply IH, next_tidy, T.
    + destruct (_ >? STREAMING_LIMIT); [exact T |].
      destruct (handle translate_client response acc (mic w))
        as [[acc' s'] | e] eqn:H; [| exact T].
      destruct (handle_audio _ _ _ _ _ _ H) as (HB & HA & _).
      destruct (handle_keeps _ _ _ _ _ _ H) as ((HC & _ & HL & _) & _).
      apply IH. destruct T as ((C & B & A & L) & HH).
      unfold tidy, clean. cbn. rewrite HB, HA, HC, HL. auto.
    + exact T.
Qed.

Lemma main_iteration_clean (evs : list event) (s : stream) :
  clean s ->
  match main_iteration translate_client evs s with
  | (Continue, s', _) | (Uncaught _, s', _) => clean s'
  | (Break, s', _) =>
      closed s' = true /\ last (_buff s') (Some []) = None
  end.
Proof.
  intros C.
  assert (T : tidy (open_request s)).
  { destruct C as (Cc & Cb & Ca & Cl). unfold tidy, clean. cbn.
    repeat split; auto. }
  unfold main_iteration, listen_print_loop.
  pose proof (listen_tidy evs no_transcripts (open_request s) T) as T1.
  unfold open_request in T1.
  destruct (listen translate_client evs no_transcripts _) as [[o acc] w].
  cbn [fst snd] in T1. destruct T1 as ((Cc & Cb & Ca & Cl) & _).
  destruct o as [| [| |]].
  - unfold reset, clean. destruct (result_end_time (mic w) >? 0); cbn;
      repeat split; auto.
  - unfold clean. auto.
  - cbn. split; [reflexivity |]. unfold put. apply last_last.
  - unfold clean. auto.
Qed.

(** X7.  Over any run of the loop of [main] that starts on an open stream
    without close signal, as the stream is after [__enter__], every request
    starts on such a stream: no pass of the generator meets the close
    signal, whether the requests end by the limit, with the responses or by
    [DeadlineExceeded].  The run ends on such a stream, or, when
    [KeyboardInterrupt] broke the loop, on a closed stream whose queue ends
    with the close signal. *)
Theorem run_keeps_clean (run : list (list event)) (s : stream) :
  clean s ->
  let s' := fst (main_loop translate_client run s) in
  clean s' \/ (closed s' = true /\ last (_buff s') (Some []) = None).
Proof.
  revert s. induction run as [| evs run IH]; intros s C; cbn.
  - left. exact C.
  - destruct C as (Cc & C'). rewrite Cc.
    pose proof (main_iteration_clean evs s (conj Cc C')) as M.
    destruct (main_iteration translate_client evs s) as [[c s1] out].
    destruct c.
    + specialize (IH s1 M). cbv zeta in IH.
      destruct (main_loop translate_client run s1) as [s2 out2]. exact IH.
    + right. exact M.
    + left. exact M.
Qed.

(** X13.  Over a run of the loop of [main], [restart_counter] never goes
    down and grows by at most one per request; on a stream that is closed
    the loop does nothing. *)
Theorem restart_counter_over_run (run : list (list event)) (s : stream) :
  let s' := fst (main_loop translate_client run s) in
  restart_counter s <= restart_counter s'
                    <= restart_counter s + Z.of_nat (length run) /\
  (closed s = true -> main_loop translate_client run s = (s, [])).
Proof.
  split.
  - revert s. induction run as [| evs run IH]; intros s.
    + cbn. lia.
    + cbn [main_loop length]. destruct (closed s); [cbn; lia |].
      assert (B : restart_counter s
                  <= restart_counter
                       (snd (fst (main_iteration translate_client evs s)))
                  <= restart_counter s + 1).
      { rewrite main_iteration_unfold.
        destruct (run_keeps translate_client evs s) as (_ & K & _).
        destruct (ending (start_time s) evs) as [| [| |]].
        - unfold reset. cbn. destruct (_ >? 0); cbn; lia.
        - lia.
        - cbn. lia.
        - lia. }
      destruct (main_iteration translate_client evs s) as [[c s1] out].
      cbn [fst snd] in B. destruct c.
      * specialize (IH s1).
        destruct (main_loop translate_client run s1) as [s2 out2].
        cbn [fst] in *. lia.
      * cbn [fst]. lia.
      * cbn [fst]. lia.
  - intros C. destruct run; cbn; [reflexivity |]. rewrite C. reflexivity.
Qed.

End CleanRequests.

(** ** A chunk that arrives while the generator waits *)

(** X8.  When the queue is empty and the generator is not inside a pass,
    it makes no difference whether the client asks for the next item
    before the callback puts a chunk, so that the generator waits in
    [get()], or after: the same content is yielded and the stream ends in
    the same state. *)
Theorem capture_after_request (c : bytes) (w : session) :
  audio_generator w = Suspended -> _buff (mic w) = [] ->
  next (with_mic (_fill_buffer c) (next w))
  = next (with_mic (_fill_buffer c) w).
Proof.
  destruct w as [s g r]. cbn [audio_generator mic]. intros -> B.
  unfold next at 2 3. cbn [audio_generator mic with_mic].
  unfold generator. change (closed (_fill_buffer c s)) with (closed s).
  destruct (closed s) eqn:C; [reflexivity |].
  unfold replay, _fill_buffer at 2. rewrite replay_with_set_buff.
  destruct (replay_with_frame STREAMING_LIMIT s) as (B1 & _).
  destruct (replay_with STREAMING_LIMIT s) as [[data | e] s1];
    cbn [fst snd] in *.
  - unfold fetch at 1. rewrite B1, B.
    cbn [get settle with_mic mic audio_generator requests].
    unfold next, with_mic, _fill_buffer. cbn [audio_generator mic requests].
    rewrite B1, B.
    destruct (fetch data _); reflexivity.
  - cbn [settle with_mic mic audio_generator requests].
    unfold next, with_mic, _fill_buffer. cbn [audio_generator mic requests].
    rewrite B1, B. reflexivity.
Qed.

(** ** The offset is set once per request *)

Lemma drain_offset (q data : list item) (s : stream) :
  bridging_offset (stream_of (drain q data s)) = bridging_offset s /\
  new_stream (stream_of (drain q data s)) = new_stream s.
Proof.
  revert data s. induction q as [| [c |] q IH]; intros data s; cbn.
  - destruct (join data); cbn; auto.
  - destruct (IH (data ++ [Some c])
                (set_audio_input (audio_input s ++ [Some c]) s)) as [-> ->].
    auto.
  - auto.
Qed.

Lemma fetch_offset (data : list item) (s : stream) :
  bridging_offset (stream_of (fetch data s)) = bridging_offset s /\
  new_stream (stream_of (fetch data s)) = new_stream s.
Proof.
  unfold fetch. destruct (get (_buff s)) as [[[c |] q'] |]; cbn; auto.
  match goal with
  | |- context [drain ?q ?d ?s0] =>
      destruct (drain_offset q d s0) as [-> ->]
  end.
  auto.
Qed.

(** The replay depends on four fields of the stream only. *)
Lemma replay_with_same (limit : Z) (s t : stream) :
  new_stream t = new_stream s ->
  last_audio_input t = last_audio_input s ->
  final_request_end_time t = final_request_end_time s ->
  bridging_offset t = bridging_offset s ->
  fst (replay_with limit t) = fst (replay_with limit s) /\
  bridging_offset (snd (replay_with limit t))
  = bridging_offset (snd (replay_with limit s)) /\
  new_stream (snd (replay_with limit t))
  = new_stream (snd (replay_with limit s)).
Proof.
  destruct s as [b c t0 rc a la re fe fr bo lf ns].
  destruct t as [b' c' t0' rc' a' la' re' fe' fr' bo' lf' ns'].
  cbn. intros -> -> -> ->.
  unfold replay_with. rewrite !guard_offset_spec.
  cbn [new_stream last_audio_input final_request_end_time bridging_offset
       set_bridging_offset].
  destruct (ns && _); [| cbn; auto].
  destruct (Py.int_truediv _ _) as [ct |]; [| cbn; auto].
  destruct (negb _); [| cbn; auto].
  destruct (let* x := Py.float_of_int _ in _) as [k |]; [| cbn; auto].
  destruct (let* y := Py.float_of_int _ in _) as [y |]; [| cbn; auto].
  destruct (Py.extend_from _ _ _); cbn; auto.
Qed.

Lemma next_offset_session (s0 : stream) (w : session) :
  last_audio_input (mic w) = last_audio_input s0 ->
  final_request_end_time (mic w) = final_request_end_time s0 ->
  offset_session s0 w -> offset_session s0 (next w).
Proof.
  intros L F O. unfold next.
  destruct (audio_generator w) as [| data |] eqn:G.
  - unfold generator. destruct (closed (mic w)).
    { unfold offset_session in *. cbn.
      destruct O as [O | (N & NE & B & N' & _)]; [left; exact O |].
      right. repeat split; auto. }
    destruct O as [[B N] | (N0 & NE & B & N' & [NF | GF])].
    + destruct (replay_with_same STREAMING_LIMIT s0 (mic w) N L F B)
        as (R1 & R2 & R3).
      fold (replay (mic w)) in R1, R2, R3. fold (replay s0) in R1, R2, R3.
      destruct (new_stream s0) eqn:N0.
      * destruct (last_audio_input s0) as [| x l] eqn:LA.
        { rewrite replay_skipped in R2, R3 |- * by (rewrite L; auto).
          cbv iota beta.
          destruct (fetch_offset [] (mic w)) as [FB FN].
          left. rewrite settle_mic, FB, FN. split; congruence. }
        assert (NE : last_audio_input s0 <> []) by (rewrite LA; discriminate).
        right. rewrite <- LA in *.
        destruct (replay (mic w)) as [[data | e] s1] eqn:R;
          cbn [fst snd] in *.
        -- destruct (fetch_offset data s1) as [FB FN].
           rewrite settle_mic, FB, FN.
           destruct (replay_ok _ _ _ R) as [_ [NF | LE]].
           ++ repeat split; auto.
           ++ destruct (replay_with_frame STREAMING_LIMIT (mic w))
                as (_ & _ & _ & LL).
              fold (replay (mic w)) in LL. rewrite R in LL. cbn in LL.
              congruence.
        -- cbn. repeat split; auto.
      * rewrite replay_skipped in R2, R3 |- * by auto.
        cbv iota beta.
        destruct (fetch_offset [] (mic w)) as [FB FN].
        left. rewrite settle_mic, FB, FN. split; congruence.
    + rewrite replay_skipped by auto.
      cbv iota beta.
      destruct (fetch_offset [] (mic w)) as [FB FN].
      right. rewrite settle_mic, FB, FN. repeat split; auto.
    + congruence.
  - destruct (fetch_offset data (mic w)) as [FB FN].
    unfold offset_session in *. rewrite settle_mic, FB, FN.
    destruct O as [O | (N0 & NE & B & N' & [NF | GF])].
    + left. exact O.
    + right. repeat split; auto.
    + congruence.
  - exact O.
Qed.

Section OffsetOnce.

Variable translate_client : string -> translation.

Lemma listen_offset_session (s0 : stream) (evs : list event)
    (acc : transcripts) (w : session) :
  request_keeps s0 (mic w) -> offset_session s0 w ->
  offset_session s0 (snd (listen translate_client evs acc w)).
Proof.
  revert acc w. induction evs as [| ev evs IH]; intros acc w K O.
  - exact O.
  - destruct ev as [in_data | | now now' response | x]; cbn [listen].
    + apply IH; [exact K | exact O].
    + pose proof (next_keeps w) as (Kc & _ & Kr & Kl & _ & _ & Kf & _).
      destruct K as (K1 & K2 & K3 & K4).
      apply IH.
      * unfold request_keeps. repeat split; congruence.
      * apply next_offset_session; assumption.
    + destruct (_ >? STREAMING_LIMIT); [exact O |].
      destruct (handle translate_client response acc (mic w))
        as [[acc' s'] | e] eqn:H; [| exact O].
      destruct (handle_audio _ _ _ _ _ _ H) as (_ & _ & HN).
      destruct (handle_keeps _ _ _ _ _ _ H) as ((H1 & H2 & H3 & H4) & _ & HB).
      destruct K as (K1 & K2 & K3 & K4). apply IH.
      * unfold request_keeps. cbn. repeat split; congruence.
      * unfold offset_session in *. cbn. rewrite HB, HN. exact O.
    + exact O.
Qed.

(** X9.  During a request [bridging_offset] is assigned by at most one
    replay: when [listen_print_loop] ends, either it and [new_stream] are
    what they were when the request started, or the request started with
    [new_stream] set and a non-empty [last_audio_input], and they are what
    the replay on the stream at the start of the request leaves, however
    many passes the generator made. *)
Theorem offset_assigned_once (evs : list event) (s : stream) :
  offset_state s (mic (snd (fst (run_request translate_client evs s)))).
Proof.
  unfold run_request, listen_print_loop.
  assert (O : offset_session s
                (snd (listen translate_client evs no_transcripts
                        (open_request s)))).
  { apply listen_offset_session.
    - unfold request_keeps. cbn. auto.
    - left. cbn. auto. }
  assert (O' : offset_state s
                 (mic (snd (listen translate_client evs no_transcripts
                              (open_request s))))).
  { destruct O as [O | (N & NE & B & N' & _)]; [left; exact O |].
    right. auto. }
  destruct (listen translate_client evs no_transcripts (open_request s))
    as [[o acc] w'].
  destruct o; exact O'.
Qed.

End OffsetOnce.

(** ** The time fields after a request *)

Section TimeFields.

Variable translate_client : string -> translation.

Lemma listen_final (evs : list event) (acc : transcripts) (w : session) :
  let s1 := mic (snd (listen translate_client evs acc w)) in
  let done := processed (start_time (mic w)) evs in
  is_final_end_time s1
  = last (map snd (filter is_final done)) (is_final_end_time (mic w)) /\
  last_transcript_was_final s1
  = last (map is_final done) (last_transcript_was_final (mic w)) /\
  start_time s1
  = match limit_break (start_time (mic w)) evs with
    | Some t => t
    | None => start_time (mic w)
    end.
Proof.
  revert acc w. induction evs as [| ev evs IH]; intros acc w.
  - cbn. auto.
  - destruct ev as [in_data | | now now' response | x];
      cbn [listen processed limit_break].
    + apply (IH acc (with_mic (_fill_buffer in_data) w)).
    + pose proof (next_keeps w) as (_ & S & _ & _ & _ & F & _ & T).
      specialize (IH acc (next w)). cbv zeta in IH.
      rewrite S, F, T in IH. exact IH.
    + destruct (_ >? STREAMING_LIMIT); [cbn; auto |].
      pose proof (handle_cases translate_client response acc (mic w)) as H.
      destruct (timed response) as [[[result time] |] | e].
      * destruct H as (top & _ & H). cbv zeta in H. rewrite H.
        rewrite filter_final_cons. cbn [map].
        change (is_final (result, time)) with (Speech.is_final result).
        destruct (Speech.is_final result).
        -- match goal with
           | |- context [listen _ _ ?a ?v] => specialize (IH a v)
           end.
           cbv zeta in IH. cbn [mic start_time set_last_transcript_was_final
                                set_is_final_end_time set_result_end_time
                                is_final_end_time last_transcript_was_final]
             in IH.
           destruct IH as (I1 & I2 & I3). rewrite I1, I2, I3.
           cbn [map snd]. rewrite !last_cons_default. auto.
        -- match goal with
           | |- context [listen _ _ ?a ?v] => specialize (IH a v)
           end.
           cbv zeta in IH. cbn [mic start_time set_last_transcript_was_final
                                set_is_final_end_time set_result_end_time
                                is_final_end_time last_transcript_was_final]
             in IH.
           destruct IH as (I1 & I2 & I3). rewrite I1, I2, I3.
           rewrite !last_cons_default. auto.
      * rewrite H.
        apply (IH acc (mkSession (mic w) (audio_generator w) (requests w))).
      * rewrite H. cbn. auto.
    + cbn. auto.
Qed.

(** X10.  When [listen_print_loop] ends, [is_final_end_time] is the end
    time of the last final result processed in the request and
    [last_transcript_was_final] tells whether the last result processed was
    final; each keeps its value when there was no such result.
    [start_time] is the second clock reading of the response that was read
    after the limit, and keeps its value when the loop ended otherwise. *)
Theorem time_fields_after_request (evs : list event) (s : stream) :
  let s1 := mic (snd (fst (run_request translate_client evs s))) in
  let done := processed (start_time s) evs in
  is_final_end_time s1
  = last (map snd (filter is_final done)) (is_final_end_time s) /\
  last_transcript_was_final s1
  = last (map is_final done) (last_transcript_was_final s) /\
  start_time s1
  = match limit_break (start_time s) evs with
    | Some t => t
    | None => start_time s
    end.
Proof.
  unfold run_request, listen_print_loop.
  pose proof (listen_final evs no_transcripts (open_request s)) as H.
  destruct (listen translate_client evs no_transcripts (open_request s))
    as [[o acc] w'].
  destruct o; exact H.
Qed.

Lemma run_is_final (evs : list event) (s : stream) :
  is_final_end_time (mic (snd (fst (run_request translate_client evs s))))
  = last (map snd (filter is_final (processed (start_time s) evs)))
      (is_final_end_time s).
Proof.
  unfold run_request, listen_print_loop.
  pose proof (listen_final evs no_transcripts (open_request s)) as (H & _).
  destruct (listen translate_client evs no_transcripts (open_request s))
    as [[o acc] w'].
  destruct o; exact H.
Qed.

(** X11.  A request in which no final result is processed leaves
    [final_request_end_time] where it was, however the request ends,
    provided [is_final_end_time] and [final_request_end_time] agreed when
    it started, as they do on a new stream; and they agree again
    afterwards. *)
Theorem interim_only_keeps_final_point (evs : list event) (s : stream) :
  is_final_end_time s = final_request_end_time s ->
  Forall (fun p => is_final p = false) (processed (start_time s) evs) ->
  let s' := snd (fst (main_iteration translate_client evs s)) in
  final_request_end_time s' = final_request_end_time s /\
  is_final_end_time s' = final_request_end_time s'.
Proof.
  intros J I s'. subst s'. rewrite main_iteration_unfold.
  assert (N : filter is_final (processed (start_time s) evs) = []).
  { induction I as [| r l R _ IH]; [reflexivity |]. cbn. rewrite R. exact IH. }
  pose proof (run_is_final evs s) as F.
  pose proof (run_keeps translate_client evs s) as (_ & _ & _ & K).
  set (s1 := mic (snd (fst (run_request translate_client evs s)))) in *.
  rewrite N in F. cbn in F.
  destruct (ending (start_time s) evs) as [| [| |]].
  - unfold reset. destruct (result_end_time s1 >? 0); cbn; split; congruence.
  - split; congruence.
  - cbn. split; congruence.
  - split; congruence.
Qed.

End TimeFields.

(** ** Instances of the properties above *)

Lemma started_clean : clean started.
Proof. unfold clean. cbn. repeat split; constructor. Defined.

Lemma captured_audio_conserved_witness :
  let s1 := mic (snd (fst (run_request echo first_request started))) in
  audio_input s1 ++ _buff s1
  = map (fun i => Some (chunk_no i)) (seq 0 100).
Proof.
  exact (captured_audio_conserved echo first_request started
           (Forall_nil _)).
Defined.

Lemma clean_pass_waits_or_yields_witness :
  generator started = Blocked [] started.
Proof.
  destruct (clean_pass_waits_or_yields started started_clean) as [H _].
  exact H.
Defined.

Lemma run_keeps_clean_witness :
  let s' := fst (main_loop echo [first_request; second_request] started) in
  clean s' \/ (closed s' = true /\ last (_buff s') (Some []) = None).
Proof.
  exact (run_keeps_clean echo [first_request; second_request] started
           started_clean).
Defined.

Lemma capture_after_request_witness :
  next (with_mic (_fill_buffer (chunk_no 1)) (next (open_request started)))
  = next (with_mic (_fill_buffer (chunk_no 1)) (open_request started)).
Proof.
  exact (capture_after_request (chunk_no 1) (open_request started)
           eq_refl eq_refl).
Defined.

Lemma interim_only_keeps_final_point_witness :
  final_request_end_time
    (snd (fst (main_iteration echo two_interim (restarted 3 9400 0))))
  = 9400.
Proof.
  destruct (interim_only_keeps_final_point echo two_interim
              (restarted 3 9400 0) eq_refl) as [H _].
  - vm_compute. repeat constructor.
  - exact H.
Defined.
